(** * The items API: a verification model of the two server variants

    The repository holds two variants of one Express server: one talks to
    MySQL through a connection pool ([Pool], table [items]), the other to a
    hosted Postgres service through its query-builder client ([Hosted],
    table [android]).  Each registers six route handlers and one periodic
    connection check.

    The handlers and [checkConnection] are embedded as computations in a
    small monad over the process state.  The database and the client
    libraries are outside the repository; they appear as a table of rows
    with the documented behaviour of the statements and builder chains the
    handlers issue:
    - the SQL driver fills a placeholder with NULL for [undefined] as for
      [null], and reports in [affectedRows] the rows the WHERE clause found;
    - the hosted client sends its payload as JSON, so a key whose value is
      [undefined] does not travel and its column is not written; [.single()]
      resolves to an error, with no data, unless the result is exactly one
      row; [.delete()] without [.select()] resolves to no data.
    Whether a round trip to the database fails is an input ([fault]) of the
    computation that makes the round trip.

    Request bodies are objects whose fields are scalars.  A body field that
    is itself an object or an array is outside the model: the SQL driver
    formats such a placeholder as a list of [`key` = value] pairs, which
    changes the statement that is run, and nothing below speaks of it. *)

From Stdlib Require Import ZArith.
From stdpp Require Import gmap strings list fin_maps pretty.

(** ** Values, objects, rows *)

(** A scalar JSON value.  JavaScript's [undefined] is not a JSON value: a
    variable that may be undefined has type [option jsval].  Objects and
    arrays as field values are not represented. *)
Inductive jsval :=
| JNull
| JBool (b : bool)
| JNum (n : Z)
| JStr (s : string).

#[global] Instance jsval_eq_dec : EqDecision jsval.
Proof. solve_decision. Defined.

(** An object literal as [JSON.stringify] writes it: a key whose value is
    undefined is left out. *)
Definition literal (fields : list (string * option jsval)) : gmap string jsval :=
  foldr (λ kv o, match kv.2 with Some v => <[kv.1 := v]> o | None => o end) ∅ fields.

(** A row of the table.  The key is generated by the database; the five
    capture fields are written by POST, [name] and [description] by PUT.
    Cells hold what they are given (the columns are taken to be wide enough
    for it); SQL NULL is [JNull]. *)
Module Item.
Record t := mk {
  id : Z;
  location : jsval;
  contacts : jsval;
  image : jsval;
  call_logs : jsval;
  sms : jsval;
  name : jsval;
  description : jsval;
}.

(** The row as the drivers hand it to the handler, all columns. *)
Definition json (r : t) : gmap string jsval :=
  literal [("id", Some (JNum (id r))); ("location", Some (location r));
           ("contacts", Some (contacts r)); ("image", Some (image r));
           ("call_logs", Some (call_logs r)); ("sms", Some (sms r));
           ("name", Some (name r)); ("description", Some (description r))].
End Item.

#[global] Instance item_eq_dec : EqDecision Item.t.
Proof. solve_decision. Defined.

(** How the database reads the text of a path parameter as a key: the
    handlers pass [req.params.id] on as text and the comparison with the
    key column is the engine's.  Everything below holds for any reading. *)
Class KeyReading := id_matches : string → Z → bool.

(** The reading used in the worked examples: the text is the decimal
    numeral of the key. *)
Definition decimal : KeyReading := λ text key, bool_decide (text = pretty key).

(** A row with key 1, for the worked examples. *)
Definition sample : Item.t :=
  Item.mk 1 (JStr "L") (JStr "C") (JStr "I") (JStr "CL") (JStr "S") (JStr "old") JNull.

(** The rows a [WHERE id = ?] / [.eq('id', ...)] filter selects. *)
Definition matching `{KeyReading} (id : string) (rows : list Item.t) : list Item.t :=
  filter (λ r, id_matches id (Item.id r)) rows.

(** ** The process *)

(** The value a failed round trip raises: the driver's [Error], or the
    hosted client's error object.  Its [message] need not be there:
    [error.message] is then [undefined]. *)
Record Error := mkError { message : option string }.

#[global] Instance error_eq_dec : EqDecision Error.
Proof. solve_decision. Defined.

(** What the console is given: a text, or a label with an error value,
    which the console shows as it shows values. *)
Inductive Output :=
| Text (line : string)                      (* console.log(line) *)
| Report (label : string) (error : Error).  (* console.error(label, error) *)

Record Process := mkProcess {
  items : list Item.t;          (* the table, in storage order *)
  next_id : Z;                  (* the key the next insert receives *)
  round_trips : nat;            (* statements sent to the database so far *)
  console : list Output;        (* what the console holds, newest first *)
  isConnected : bool;           (* let isConnected = false *)
  connectionAttempts : nat;     (* let connectionAttempts = 0 *)
}.

(** The process as the script leaves it at start-up, on a given table. *)
Definition boot (rows : list Item.t) (next : Z) : Process :=
  mkProcess rows next 0 [] false 0.

Definition with_items (rows : list Item.t) (next : Z) (p : Process) : Process :=
  mkProcess rows next (round_trips p) (console p) (isConnected p) (connectionAttempts p).

Definition with_console (lines : list Output) (p : Process) : Process :=
  mkProcess (items p) (next_id p) (round_trips p) lines (isConnected p) (connectionAttempts p).

Definition with_monitor (connected : bool) (attempts : nat) (p : Process) : Process :=
  mkProcess (items p) (next_id p) (round_trips p) (console p) connected attempts.

Definition tick (p : Process) : Process :=
  mkProcess (items p) (next_id p) (S (round_trips p)) (console p)
            (isConnected p) (connectionAttempts p).

(** How a computation ends: with a value, with a thrown error, or with the
    process gone ([process.exit]). *)
Inductive Completion (A : Type) :=
| Returned (a : A)
| Thrown (error : Error)
| Exited (code : Z).
Arguments Returned {A} a.
Arguments Thrown {A} error.
Arguments Exited {A} code.

Definition Js (A : Type) : Type := Process → Completion A * Process.

#[global] Instance js_ret : MRet Js := λ A a p, (Returned a, p).

#[global] Instance js_bind : MBind Js := λ A B k m p,
  match m p with
  | (Returned a, p') => k a p'
  | (Thrown e, p') => (Thrown e, p')
  | (Exited c, p') => (Exited c, p')
  end.

Definition throw {A} (e : Error) : Js A := λ p, (Thrown e, p).

(** [try { body } catch (error) { handler }]: [process.exit] is not an
    exception and is not caught. *)
Definition try_catch {A} (body : Js A) (handler : Error → Js A) : Js A := λ p,
  match body p with
  | (Thrown e, p') => handler e p'
  | done => done
  end.

Definition process_exit {A} (code : Z) : Js A := λ p, (Exited code, p).

Definition read {A} (f : Process → A) : Js A := λ p, (Returned (f p), p).
Definition update (f : Process → Process) : Js unit := λ p, (Returned (), f p).

(** The console holds the texts logged; the line breaks that open and close
    some of them are left out, and a value read from the environment stands
    as the template writes it. *)
Definition console_log (line : string) : Js unit :=
  update (λ p, with_console (Text line :: console p) p).
Definition console_error (label : string) (e : Error) : Js unit :=
  update (λ p, with_console (Report label e :: console p) p).

(** [${error.message}] in a template: the message, or the text
    [undefined]. *)
Definition message_text (e : Error) : string := default "undefined" (message e).
Definition console_clear : Js unit := update (with_console []).

(** ** Responses *)

Inductive Body :=
| Empty                                  (* res.send() *)
| Null                                   (* res.json(null) *)
| Object (o : gmap string jsval)         (* res.json(object) *)
| Array (rows : list (gmap string jsval)). (* res.json(rows) *)

Record Response := mkResponse { status : nat; body : Body }.

(** [res.status(code).json(o)]; [res.json(o)] is [json 200 o]. *)
Definition json (code : nat) (o : gmap string jsval) : Js Response :=
  mret (mkResponse code (Object o)).
Definition json_rows (code : nat) (rows : list Item.t) : Js Response :=
  mret (mkResponse code (Array (Item.json <$> rows))).
Definition send (code : nat) : Js Response := mret (mkResponse code Empty).

Definition internal_server_error : gmap string jsval :=
  literal [("error", Some (JStr "Internal server error"))].
Definition item_not_found : gmap string jsval :=
  literal [("error", Some (JStr "Item not found"))].

(** ** The pooled-SQL variant *)

Module Pool.
Section Pool.
Context `{KeyReading}.

(** What [pool.query] resolves to for a data-changing statement. *)
Record ResultSetHeader := mkHeader { affectedRows : nat; insertId : Z }.

(** The six statements of the script, indexed by what the first component
    of their result is.  The arguments are the values bound to the
    placeholders, in order. *)
Inductive Statement : Type → Type :=
| SELECT_1 : Statement unit
    (* SELECT 1 *)
| SELECT_ALL : Statement (list Item.t)
    (* SELECT * FROM items *)
| INSERT (location contacts image call_logs sms : option jsval) : Statement ResultSetHeader
    (* INSERT INTO items (location, contacts, image, call_logs, sms) VALUES (?, ?, ?, ?, ?) *)
| SELECT_BY_ID (id : string) : Statement (list Item.t)
    (* SELECT * FROM items WHERE id = ? *)
| UPDATE (name description : option jsval) (id : string) : Statement ResultSetHeader
    (* UPDATE items SET name = ?, description = ? WHERE id = ? *)
| DELETE (id : string) : Statement ResultSetHeader.
    (* DELETE FROM items WHERE id = ? *)

(** How the driver fills a placeholder with a scalar: the value as one
    literal, and both [undefined] and [null] as NULL.  (A value that is an
    object is written as a list of assignments instead; bodies here have
    none.) *)
Definition escape (v : option jsval) : jsval := default JNull v.

Definition set_name_description (name description : jsval) (r : Item.t) : Item.t :=
  Item.mk (Item.id r) (Item.location r) (Item.contacts r) (Item.image r)
          (Item.call_logs r) (Item.sms r) name description.

(** The statement run against the table.  An inserted row receives the
    next key and NULL in the columns the statement does not name;
    [affectedRows] counts the rows the WHERE clause found. *)
Definition execute {A} (q : Statement A) (p : Process) : A * Process :=
  match q in Statement A return A * Process with
  | SELECT_1 => ((), p)
  | SELECT_ALL => (items p, p)
  | INSERT location contacts image call_logs sms =>
      let row := Item.mk (next_id p) (escape location) (escape contacts) (escape image)
                         (escape call_logs) (escape sms) JNull JNull in
      (mkHeader 1 (next_id p), with_items (items p ++ [row]) (next_id p + 1) p)
  | SELECT_BY_ID id => (matching id (items p), p)
  | UPDATE name description id =>
      let rows := (λ r, if id_matches id (Item.id r)
                        then set_name_description (escape name) (escape description) r
                        else r) <$> items p in
      (mkHeader (length (matching id (items p))) 0, with_items rows (next_id p) p)
  | DELETE id =>
      let rows := filter (λ r, ¬ id_matches id (Item.id r)) (items p) in
      (mkHeader (length (matching id (items p))) 0, with_items rows (next_id p) p)
  end.

(** [await pool.query(sql, values)]: one round trip; it rejects with the
    fault when the round trip fails, and then the table is as it was. *)
Definition query {A} (q : Statement A) (fault : option Error) : Js A := λ p,
  match fault with
  | Some e => (Thrown e, tick p)
  | None => let '(a, p') := execute q (tick p) in (Returned a, p')
  end.

(** app.get('/api/status') *)
Definition get_status (now : string) (fault : option Error) : Js Response :=
  try_catch
    (query SELECT_1 fault;;
     json 200 (literal [("status", Some (JStr "connected"));
                        ("message", Some (JStr "Database connection is active"));
                        ("timestamp", Some (JStr now))]))
    (λ error,
     console_error "Database connection error:" error;;
     json 500 (literal [("status", Some (JStr "disconnected"));
                        ("message", Some (JStr "Database connection error"));
                        ("error", JStr <$> message error);
                        ("timestamp", Some (JStr now))])).

(** app.get('/api/items') *)
Definition get_items (fault : option Error) : Js Response :=
  try_catch
    (rows ← query SELECT_ALL fault;
     json_rows 200 rows)
    (λ error,
     console_error "Error fetching items:" error;;
     json 500 internal_server_error).

(** app.post('/api/items') *)
Definition post_items (req_body : gmap string jsval) (fault : option Error) : Js Response :=
  try_catch
    (let location := req_body !! "location" in
     let contacts := req_body !! "contacts" in
     let image := req_body !! "image" in
     let call_logs := req_body !! "call_logs" in
     let sms := req_body !! "sms" in
     result ← query (INSERT location contacts image call_logs sms) fault;
     json 201 (literal [("id", Some (JNum (insertId result)));
                        ("location", location); ("contacts", contacts);
                        ("image", image); ("call_logs", call_logs); ("sms", sms)]))
    (λ error,
     console_error "Error creating item:" error;;
     json 500 internal_server_error).

(** app.get('/api/items/:id') *)
Definition get_item (id : string) (fault : option Error) : Js Response :=
  try_catch
    (rows ← query (SELECT_BY_ID id) fault;
     match rows with
     | [] => json 404 item_not_found      (* rows.length === 0 *)
     | row :: _ => json 200 (Item.json row) (* rows[0] *)
     end)
    (λ error,
     console_error "Error fetching item:" error;;
     json 500 internal_server_error).

(** app.put('/api/items/:id') *)
Definition put_item (id : string) (req_body : gmap string jsval)
    (fault : option Error) : Js Response :=
  try_catch
    (let name := req_body !! "name" in
     let description := req_body !! "description" in
     result ← query (UPDATE name description id) fault;
     if decide (affectedRows result = 0) then json 404 item_not_found
     else json 200 (literal [("id", Some (JStr id)); ("name", name);
                             ("description", description)]))
    (λ error,
     console_error "Error updating item:" error;;
     json 500 internal_server_error).

(** app.delete('/api/items/:id') *)
Definition delete_item (id : string) (fault : option Error) : Js Response :=
  try_catch
    (result ← query (DELETE id) fault;
     if decide (affectedRows result = 0) then json 404 item_not_found
     else send 204)
    (λ error,
     console_error "Error deleting item:" error;;
     json 500 internal_server_error).

Definition MAX_RETRY_ATTEMPTS : nat := 5.

(** checkConnection.  [responseTime] is the measured time of the probe in
    milliseconds. *)
Definition checkConnection (responseTime : nat) (fault : option Error) : Js unit :=
  try_catch
    (query SELECT_1 fault;;
     connected ← read isConnected;
     if negb connected then
       console_clear;;
       console_log "=== Database Connection Status ===";;
       console_log "✅ Connection established successfully";;
       console_log ("📡 Response time: " +:+ pretty responseTime +:+ "ms");;
       console_log "🏢 Host: ${process.env.DB_HOST}";;
       console_log "📚 Database: ${process.env.DB_NAME}";;
       console_log "===============================";;
       update (λ p, with_monitor true (connectionAttempts p) p);;
       update (λ p, with_monitor (isConnected p) 0 p)
     else mret ())
    (λ error,
     update (λ p, with_monitor (isConnected p) (S (connectionAttempts p)) p);;
     console_clear;;
     console_log "=== Database Connection Status ===";;
     console_log "❌ Connection failed";;
     console_log ("⚠️  Error: " +:+ message_text error);;
     attempts ← read connectionAttempts;
     console_log ("🔄 Attempt: " +:+ pretty attempts +:+ "/" +:+ pretty MAX_RETRY_ATTEMPTS);;
     console_log "===============================";;
     connected ← read isConnected;
     (if connected : bool then update (λ p, with_monitor false (connectionAttempts p) p)
      else mret ());;
     attempts ← read connectionAttempts;
     if decide (MAX_RETRY_ATTEMPTS ≤ attempts) then
       console_log "❌ Maximum retry attempts reached. Please check your database configuration.";;
       process_exit 1
     else mret ()).
End Pool.
End Pool.

(** ** The hosted-database variant *)

Module Hosted.
Section Hosted.
Context `{KeyReading}.

(** What awaiting a builder chain resolves to: [{ data, error }]. *)
Record Reply (A : Type) := mkReply { data : option A; error : option Error }.
Arguments mkReply {A} data error.
Arguments data {A} r.
Arguments error {A} r.

(** The six builder chains of the script, over [supabase.from('android')],
    indexed by the type of [data]. *)
Inductive Chain : Type → Type :=
| select_count_limit_1 : Chain nat
    (* .select('count').limit(1) *)
| select_all : Chain (list Item.t)
    (* .select('*') *)
| insert_select_single (row : gmap string jsval) : Chain Item.t
    (* .insert([row]).select().single() *)
| select_eq_single (id : string) : Chain Item.t
    (* .select('*').eq('id', id).single() *)
| update_eq_select_single (values : gmap string jsval) (id : string) : Chain Item.t
    (* .update(values).eq('id', id).select().single() *)
| delete_eq (id : string) : Chain unit.
    (* .delete().eq('id', id) *)

Definition not_singular : Error :=
  mkError (Some "JSON object requested, multiple (or no) rows returned").

(** [.single()] asks for exactly one row: it resolves to that row as an
    object in [data]; for a result of no row, or of several, it resolves to
    [error] set and [data] null. *)
Definition single (rows : list Item.t) : Reply Item.t :=
  match rows with
  | [row] => mkReply (Some row) None
  | _ => mkReply None (Some not_singular)
  end.

(** A column of a written row: the value the payload has under the
    column's name, else what the column held. *)
Definition column (payload : gmap string jsval) (key : string) (held : jsval) : jsval :=
  default held (payload !! key).

(** The payload written over a row; the key is the database's. *)
Definition patch (payload : gmap string jsval) (r : Item.t) : Item.t :=
  Item.mk (Item.id r)
          (column payload "location" (Item.location r))
          (column payload "contacts" (Item.contacts r))
          (column payload "image" (Item.image r))
          (column payload "call_logs" (Item.call_logs r))
          (column payload "sms" (Item.sms r))
          (column payload "name" (Item.name r))
          (column payload "description" (Item.description r)).

(** The chain run against the table.  The payload travels as JSON, so it
    has the keys [literal] keeps.  An inserted row receives the next key and
    NULL in the columns the payload does not have.  An update with an empty
    payload writes nothing and returns no row; an update whose result is not
    the single row [.single()] asks for is undone.  A delete resolves to no
    data and no error, whatever it removed.  In what order the store lists
    its rows after an update is the store's affair; the table here keeps an
    updated row where it was, and positions serve to tell rows apart. *)
Definition evaluate {A} (c : Chain A) (p : Process) : Reply A * Process :=
  match c in Chain A return Reply A * Process with
  | select_count_limit_1 => (mkReply (Some (length (items p))) None, p)
  | select_all => (mkReply (Some (items p)) None, p)
  | insert_select_single payload =>
      let row := patch payload
                   (Item.mk (next_id p) JNull JNull JNull JNull JNull JNull JNull) in
      (single [row], with_items (items p ++ [row]) (next_id p + 1) p)
  | select_eq_single id => (single (matching id (items p)), p)
  | update_eq_select_single payload id =>
      if decide (payload = ∅) then (single [], p)
      else
        match matching id (items p) with
        | [row] =>
            let rows := (λ r, if id_matches id (Item.id r) then patch payload r else r)
                          <$> items p in
            (single [patch payload row], with_items rows (next_id p) p)
        | rows => (single rows, p)
        end
  | delete_eq id =>
      let rows := filter (λ r, ¬ id_matches id (Item.id r)) (items p) in
      (mkReply None None, with_items rows (next_id p) p)
  end.

(** [await chain]: one round trip; a failed round trip is reported in
    [error], with no data, and then the table is as it was. *)
Definition run {A} (c : Chain A) (fault : option Error) : Js (Reply A) := λ p,
  match fault with
  | Some e => (Returned (mkReply None (Some e)), tick p)
  | None => let '(r, p') := evaluate c (tick p) in (Returned r, p')
  end.

(** [if (error) throw error;] *)
Definition throw_if_error {A} (r : Reply A) : Js unit :=
  match error r with
  | Some e => throw e
  | None => mret ()
  end.

(** app.get('/api/status') *)
Definition get_status (now : string) (fault : option Error) : Js Response :=
  try_catch
    (reply ← run select_count_limit_1 fault;
     throw_if_error reply;;
     json 200 (literal [("status", Some (JStr "connected"));
                        ("message", Some (JStr "Database connection is active"));
                        ("timestamp", Some (JStr now))]))
    (λ error,
     console_error "Database connection error:" error;;
     json 500 (literal [("status", Some (JStr "disconnected"));
                        ("message", Some (JStr "Database connection error"));
                        ("error", JStr <$> message error);
                        ("timestamp", Some (JStr now))])).

(** app.get('/api/items') *)
Definition get_items (fault : option Error) : Js Response :=
  try_catch
    (reply ← run select_all fault;
     throw_if_error reply;;
     mret (mkResponse 200 (from_option (Array ∘ fmap Item.json) Null (data reply))))
    (λ error,
     console_error "Error fetching items:" error;;
     json 500 internal_server_error).

(** app.post('/api/items') *)
Definition post_items (req_body : gmap string jsval) (fault : option Error) : Js Response :=
  try_catch
    (let location := req_body !! "location" in
     let contacts := req_body !! "contacts" in
     let image := req_body !! "image" in
     let call_logs := req_body !! "call_logs" in
     let sms := req_body !! "sms" in
     reply ← run (insert_select_single
                    (literal [("location", location); ("contacts", contacts);
                              ("image", image); ("call_logs", call_logs);
                              ("sms", sms)])) fault;
     throw_if_error reply;;
     mret (mkResponse 201 (from_option (Object ∘ Item.json) Null (data reply))))
    (λ error,
     console_error "Error creating item:" error;;
     json 500 internal_server_error).

(** app.get('/api/items/:id') *)
Definition get_item (id : string) (fault : option Error) : Js Response :=
  try_catch
    (reply ← run (select_eq_single id) fault;
     throw_if_error reply;;
     match data reply with
     | None => json 404 item_not_found      (* !data *)
     | Some row => json 200 (Item.json row)
     end)
    (λ error,
     console_error "Error fetching item:" error;;
     json 500 internal_server_error).

(** app.put('/api/items/:id') *)
Definition put_item (id : string) (req_body : gmap string jsval)
    (fault : option Error) : Js Response :=
  try_catch
    (let name := req_body !! "name" in
     let description := req_body !! "description" in
     reply ← run (update_eq_select_single
                    (literal [("name", name); ("description", description)]) id) fault;
     throw_if_error reply;;
     match data reply with
     | None => json 404 item_not_found      (* !data *)
     | Some row => json 200 (Item.json row)
     end)
    (λ error,
     console_error "Error updating item:" error;;
     json 500 internal_server_error).

(** app.delete('/api/items/:id') *)
Definition delete_item (id : string) (fault : option Error) : Js Response :=
  try_catch
    (reply ← run (delete_eq id) fault;
     throw_if_error reply;;
     send 204)
    (λ error,
     console_error "Error deleting item:" error;;
     json 500 internal_server_error).

Definition MAX_RETRY_ATTEMPTS : nat := 5.

(** checkConnection.  [responseTime] is the measured time of the probe in
    milliseconds. *)
Definition checkConnection (responseTime : nat) (fault : option Error) : Js unit :=
  try_catch
    (reply ← run select_count_limit_1 fault;
     throw_if_error reply;;
     connected ← read isConnected;
     if negb connected then
       console_clear;;
       console_log "=== Database Connection Status ===";;
       console_log "✅ Connection established successfully";;
       console_log ("📡 Response time: " +:+ pretty responseTime +:+ "ms");;
       console_log "🏢 Database URL: ${process.env.DATABASE_URL}";;
       console_log "===============================";;
       update (λ p, with_monitor true (connectionAttempts p) p);;
       update (λ p, with_monitor (isConnected p) 0 p)
     else mret ())
    (λ error,
     update (λ p, with_monitor (isConnected p) (S (connectionAttempts p)) p);;
     console_clear;;
     console_log "=== Database Connection Status ===";;
     console_log "❌ Connection failed";;
     console_log ("⚠️  Error: " +:+ message_text error);;
     attempts ← read connectionAttempts;
     console_log ("🔄 Attempt: " +:+ pretty attempts +:+ "/" +:+ pretty MAX_RETRY_ATTEMPTS);;
     console_log "===============================";;
     connected ← read isConnected;
     (if connected : bool then update (λ p, with_monitor false (connectionAttempts p) p)
      else mret ());;
     attempts ← read connectionAttempts;
     if decide (MAX_RETRY_ATTEMPTS ≤ attempts) then
       console_log "❌ Maximum retry attempts reached. Please check your database configuration.";;
       process_exit 1
     else mret ()).
End Hosted.
End Hosted.

(** ** The server loop *)

(** The six routes, with what a request brings: the clock reading for the
    status route, the path parameter, the parsed JSON body. *)
Inductive Request :=
| GET_status (now : string)                                  (* GET /api/status *)
| GET_items                                                  (* GET /api/items *)
| POST_items (req_body : gmap string jsval)                  (* POST /api/items *)
| GET_item (id : string)                                     (* GET /api/items/:id *)
| PUT_item (id : string) (req_body : gmap string jsval)      (* PUT /api/items/:id *)
| DELETE_item (id : string).                                 (* DELETE /api/items/:id *)

Inductive Variant := pool | hosted.

Definition handle `{KeyReading} (v : Variant) (r : Request) : option Error → Js Response :=
  match v, r with
  | pool, GET_status now => Pool.get_status now
  | pool, GET_items => Pool.get_items
  | pool, POST_items req_body => Pool.post_items req_body
  | pool, GET_item id => Pool.get_item id
  | pool, PUT_item id req_body => Pool.put_item id req_body
  | pool, DELETE_item id => Pool.delete_item id
  | hosted, GET_status now => Hosted.get_status now
  | hosted, GET_items => Hosted.get_items
  | hosted, POST_items req_body => Hosted.post_items req_body
  | hosted, GET_item id => Hosted.get_item id
  | hosted, PUT_item id req_body => Hosted.put_item id req_body
  | hosted, DELETE_item id => Hosted.delete_item id
  end.

Definition checkConnection `{KeyReading} (v : Variant) : nat → option Error → Js unit :=
  match v with
  | pool => Pool.checkConnection
  | hosted => Hosted.checkConnection
  end.

(** The timer and the start-up call invoke [checkConnection] again and
    again; what follows its [await] runs without interruption, so the
    invocations take effect one after the other, each with the measured
    time and the fate of its probe.  Nothing runs once the process is gone. *)
Fixpoint checks `{KeyReading} (v : Variant) (probes : list (nat * option Error))
    (p : Process) : Completion unit * Process :=
  match probes with
  | [] => (Returned (), p)
  | (responseTime, fault) :: rest =>
      match checkConnection v responseTime fault p with
      | (Returned _, p') => checks v rest p'
      | gone => gone
      end
  end.

(** The states a live process of variant [v] can be in: the state at
    start-up over any table, and what a connection check or a served
    request makes of such a state. *)
Inductive reachable `{KeyReading} (v : Variant) : Process → Prop :=
| reachable_boot rows next :
    reachable v (boot rows next)
| reachable_check p responseTime fault p' :
    reachable v p →
    checkConnection v responseTime fault p = (Returned (), p') →
    reachable v p'
| reachable_request p r fault response p' :
    reachable v p →
    handle v r fault p = (Returned response, p') →
    reachable v p'.

(** Generated keys are fresh when every stored key is below the next one. *)
Definition keys_fresh (p : Process) : Prop :=
  Forall (λ r, (Item.id r < next_id p)%Z) (items p).

(** The path text [id] names the key [key] and no other. *)
Definition names `{KeyReading} (id : string) (key : Z) : Prop :=
  ∀ k, id_matches id k = true ↔ k = key.

(** What a PUT may do to a row: the key and the five capture fields stay. *)
Definition same_capture (r r' : Item.t) : Prop :=
  Item.id r' = Item.id r ∧ Item.location r' = Item.location r ∧
  Item.contacts r' = Item.contacts r ∧ Item.image r' = Item.image r ∧
  Item.call_logs r' = Item.call_logs r ∧ Item.sms r' = Item.sms r.


(** What the event loop runs, one at a time: an invocation of
    [checkConnection] by the timer, or a request served by its handler. *)
Inductive Event :=
| Timer (responseTime : nat) (fault : option Error)
| Http (r : Request) (fault : option Error).

(** The process over a sequence of events: the responses sent, in order,
    while it lives.  Nothing runs once the process is gone. *)
Fixpoint run `{KeyReading} (v : Variant) (events : list Event) (p : Process)
    : Completion (list Response) * Process :=
  match events with
  | [] => (Returned [], p)
  | Timer responseTime fault :: rest =>
      match checkConnection v responseTime fault p with
      | (Returned _, p') => run v rest p'
      | (Thrown e, p') => (Thrown e, p')
      | (Exited code, p') => (Exited code, p')
      end
  | Http r fault :: rest =>
      match handle v r fault p with
      | (Returned response, p') =>
          match run v rest p' with
          | (Returned responses, p'') => (Returned (response :: responses), p'')
          | gone => gone
          end
      | (Thrown e, p') => (Thrown e, p')
      | (Exited code, p') => (Exited code, p')
      end
  end.

(** The probes among the events. *)
Definition probes (events : list Event) : list (nat * option Error) :=
  omap (λ e, match e with
             | Timer responseTime fault => Some (responseTime, fault)
             | Http _ _ => None
             end) events.

(** What the monitor shows of a run: the exit code if the process is gone,
    the flag and the counter. *)
Definition monitor_view {A} (x : Completion A * Process) : option Z * bool * nat :=
  (match x.1 with Exited code => Some code | _ => None end,
   isConnected x.2, connectionAttempts x.2).

(** The table: the rows and the next key. *)
Definition table (p : Process) : list Item.t * Z := (items p, next_id p).

(** The failed probes since the last probe that succeeded, counted on from
    [count]; and whether the last probe succeeded, [flag] if there was none. *)
Definition failures_since_success (count : nat) (probes : list (nat * option Error)) : nat :=
  foldl (λ n probe, match probe.2 with Some _ => S n | None => 0 end) count probes.

Definition last_probe_succeeded (flag : bool) (probes : list (nat * option Error)) : bool :=
  foldl (λ _ probe, match probe.2 with Some _ => false | None => true end) flag probes.

(** A value that is a text or null: what the columns hold as given. *)
Definition text_or_null (v : jsval) : bool :=
  match v with
  | JNull | JStr _ => true
  | JBool _ | JNum _ => false
  end.

(** The same rows, in whatever order, and the same next key. *)
Definition same_store (p q : Process) : Prop :=
  items p ≡ₚ items q ∧ next_id p = next_id q.

(** * Verification *)

(** Running a handler or a check is unfolding the monad. *)
Ltac js_unfold :=
  unfold checkConnection, handle,
    Pool.checkConnection, Pool.get_status, Pool.get_items, Pool.post_items,
    Pool.get_item, Pool.put_item, Pool.delete_item, Pool.query,
    Hosted.checkConnection, Hosted.get_status, Hosted.get_items, Hosted.post_items,
    Hosted.get_item, Hosted.put_item, Hosted.delete_item, Hosted.run,
    Hosted.throw_if_error,
    try_catch, json, json_rows, send, console_error, console_log, console_clear,
    read, update, throw, process_exit, mbind, js_bind, mret, js_ret.

Ltac js_simpl := js_unfold; cbn -[pretty String.app literal matching filter].

(** ** What each handler computes *)

Section Handlers.
Context `{KeyReading}.

(** Every handler answers a failed round trip with 500 and an object,
    after one round trip and one report on the console.  The object of an
    item route has the fixed [error] text; that of the status route has the
    error's message under [error], if the error has one. *)
Lemma handle_fault v r e p :
  ∃ o label,
    handle v r (Some e) p =
      (Returned (mkResponse 500 (Object o)),
       with_console (Report label e :: console p) (tick p)) ∧
    o !! "error" = match r with
                   | GET_status _ => JStr <$> message e
                   | _ => Some (JStr "Internal server error")
                   end.
Proof.
  destruct v, r; js_simpl; do 2 eexists; (split; [reflexivity|]);
    try reflexivity; by destruct (message e).
Qed.

Lemma pool_get_item id p :
  Pool.get_item id None p =
    (Returned match matching id (items p) with
              | [] => mkResponse 404 (Object item_not_found)
              | row :: _ => mkResponse 200 (Object (Item.json row))
              end, tick p).
Proof. js_simpl. by destruct (matching id (items p)). Qed.

Lemma pool_put_item id req_body p :
  Pool.put_item id req_body None p =
    (Returned (if decide (length (matching id (items p)) = 0)
               then mkResponse 404 (Object item_not_found)
               else mkResponse 200 (Object (literal [("id", Some (JStr id));
                                                     ("name", req_body !! "name");
                                                     ("description", req_body !! "description")]))),
     with_items ((λ r, if id_matches id (Item.id r)
                       then Pool.set_name_description (Pool.escape (req_body !! "name"))
                              (Pool.escape (req_body !! "description")) r
                       else r) <$> items p) (next_id p) (tick p)).
Proof. js_simpl. by case_decide. Qed.

Lemma pool_delete_item id p :
  Pool.delete_item id None p =
    (Returned (if decide (length (matching id (items p)) = 0)
               then mkResponse 404 (Object item_not_found)
               else mkResponse 204 Empty),
     with_items (filter (λ r, ¬ id_matches id (Item.id r)) (items p)) (next_id p) (tick p)).
Proof. js_simpl. by case_decide. Qed.

Lemma pool_post_items req_body p :
  Pool.post_items req_body None p =
    (Returned (mkResponse 201 (Object (literal
       [("id", Some (JNum (next_id p))); ("location", req_body !! "location");
        ("contacts", req_body !! "contacts"); ("image", req_body !! "image");
        ("call_logs", req_body !! "call_logs"); ("sms", req_body !! "sms")]))),
     with_items (items p ++ [Item.mk (next_id p)
                               (Pool.escape (req_body !! "location"))
                               (Pool.escape (req_body !! "contacts"))
                               (Pool.escape (req_body !! "image"))
                               (Pool.escape (req_body !! "call_logs"))
                               (Pool.escape (req_body !! "sms")) JNull JNull])
                (next_id p + 1) (tick p)).
Proof. reflexivity. Qed.

Lemma hosted_get_item id p :
  Hosted.get_item id None p =
    match matching id (items p) with
    | [row] => (Returned (mkResponse 200 (Object (Item.json row))), tick p)
    | _ => (Returned (mkResponse 500 (Object internal_server_error)),
            with_console (Report "Error fetching item:" Hosted.not_singular :: console p)
                         (tick p))
    end.
Proof. js_simpl. by destruct (matching id (items p)) as [|? [|]]. Qed.

Lemma hosted_put_item id req_body p :
  Hosted.put_item id req_body None p =
    let payload := literal [("name", req_body !! "name");
                            ("description", req_body !! "description")] in
    let failed := (Returned (mkResponse 500 (Object internal_server_error)),
                   with_console (Report "Error updating item:" Hosted.not_singular
                                   :: console p) (tick p)) in
    if decide (payload = ∅) then failed
    else match matching id (items p) with
         | [row] =>
             (Returned (mkResponse 200 (Object (Item.json (Hosted.patch payload row)))),
              with_items ((λ r, if id_matches id (Item.id r)
                                then Hosted.patch payload r else r) <$> items p)
                         (next_id p) (tick p))
         | _ => failed
         end.
Proof.
  js_simpl. case_decide; [done|]. by destruct (matching id (items p)) as [|? [|]].
Qed.

Lemma hosted_delete_item id p :
  Hosted.delete_item id None p =
    (Returned (mkResponse 204 Empty),
     with_items (filter (λ r, ¬ id_matches id (Item.id r)) (items p)) (next_id p) (tick p)).
Proof. reflexivity. Qed.

Lemma hosted_post_items req_body p :
  Hosted.post_items req_body None p =
    let row := Hosted.patch
                 (literal [("location", req_body !! "location");
                           ("contacts", req_body !! "contacts");
                           ("image", req_body !! "image");
                           ("call_logs", req_body !! "call_logs");
                           ("sms", req_body !! "sms")])
                 (Item.mk (next_id p) JNull JNull JNull JNull JNull JNull JNull) in
    (Returned (mkResponse 201 (Object (Item.json row))),
     with_items (items p ++ [row]) (next_id p + 1) (tick p)).
Proof. reflexivity. Qed.
End Handlers.

(** ** The connection monitor *)

Section Monitor.
Context `{KeyReading}.

(** A probe that succeeds: the check returns, the flag is up, and the
    counter is cleared unless the flag was up already. *)
Lemma check_succeeds v responseTime p :
  ∃ p', checkConnection v responseTime None p = (Returned (), p') ∧
        isConnected p' = true ∧
        connectionAttempts p' = (if isConnected p then connectionAttempts p else 0).
Proof.
  destruct v; js_simpl; destruct (isConnected p) eqn:E; cbn -[pretty String.app];
    (eexists; split; [reflexivity | split; cbn; done]).
Qed.

(** A probe that fails: the counter goes up by one, the flag is down, and
    the process exits with code 1 once the counter has reached the
    maximum. *)
Lemma check_fails v responseTime e p :
  ∃ p', checkConnection v responseTime (Some e) p =
          (if decide (5 ≤ S (connectionAttempts p)) then Exited 1 else Returned (), p') ∧
        isConnected p' = false ∧
        connectionAttempts p' = S (connectionAttempts p).
Proof.
  destruct v; js_simpl; destruct (isConnected p) eqn:E; cbn -[pretty String.app];
    unfold Pool.MAX_RETRY_ATTEMPTS, Hosted.MAX_RETRY_ATTEMPTS;
    case_decide; cbn -[pretty String.app];
    (eexists; split; [reflexivity | split; cbn; done]).
Qed.

(** A connection check reads the database and writes nothing to it. *)
Lemma check_keeps_table v responseTime fault p :
  items (checkConnection v responseTime fault p).2 = items p ∧
  next_id (checkConnection v responseTime fault p).2 = next_id p.
Proof.
  destruct v, fault as [e|]; js_simpl; destruct (isConnected p); cbn -[pretty String.app];
    unfold Pool.MAX_RETRY_ATTEMPTS, Hosted.MAX_RETRY_ATTEMPTS;
    try case_decide; done.
Qed.

(** The route handlers do not touch the monitor's variables. *)
Lemma handle_keeps_monitor v r fault p :
  isConnected (handle v r fault p).2 = isConnected p ∧
  connectionAttempts (handle v r fault p).2 = connectionAttempts p.
Proof.
  destruct fault as [e|].
  { destruct (handle_fault v r e p) as (o & line & -> & _). done. }
  destruct v, r;
    unfold handle;
    rewrite ?pool_get_item, ?pool_put_item, ?pool_delete_item,
      ?hosted_get_item, ?hosted_put_item; try done.
  all: cbn zeta; repeat case_decide; try done.
  all: by destruct (matching id (items p)) as [|? [|]].
Qed.

(** While the flag is up the counter is zero. *)
Lemma connected_means_no_attempts v p :
  reachable v p → isConnected p = true → connectionAttempts p = 0.
Proof.
  induction 1 as [rows next | p t fault p' _ IH Hstep | p r fault resp p' _ IH Hstep].
  - done.
  - destruct fault as [e|].
    + destruct (check_fails v t e p) as (q & Hq & Hflag & _).
      rewrite Hq in Hstep. intros Hup. case_decide; simplify_eq.
      rewrite Hflag in Hup. discriminate.
    + destruct (check_succeeds v t p) as (q & Hq & _ & Hcount).
      rewrite Hq in Hstep. simplify_eq. intros _. rewrite Hcount.
      destruct (isConnected p); auto.
  - destruct (handle_keeps_monitor v r fault p) as [Hflag Hcount].
    rewrite Hstep in Hflag, Hcount. cbn in *.
    intros Hup. rewrite Hcount. apply IH. congruence.
Qed.

(** Failures short of the maximum leave the process running and are
    counted one by one. *)
Lemma checks_below_maximum v probes p :
  Forall (λ probe, is_Some probe.2) probes →
  connectionAttempts p + length probes < 5 →
  ∃ p', checks v probes p = (Returned (), p') ∧
        connectionAttempts p' = connectionAttempts p + length probes.
Proof.
  intros Hfail. revert p.
  induction Hfail as [|[t fault] probes [e Hf] _ IH]; intros p Hlt; cbn in *.
  - exists p. split; [done | lia].
  - subst fault. destruct (check_fails v t e p) as (q & -> & _ & Hq).
    rewrite decide_False; [|lia].
    destruct (IH q) as (p' & -> & Hp'); [lia|].
    exists p'. split; [done | lia].
Qed.

(** The failure that brings the counter to the maximum ends the process
    with exit code 1. *)
Lemma checks_reach_maximum v probes p :
  Forall (λ probe, is_Some probe.2) probes →
  probes ≠ [] →
  connectionAttempts p + length probes = 5 →
  ∃ p', checks v probes p = (Exited 1, p').
Proof.
  intros Hfail. revert p.
  induction Hfail as [|[t fault] probes [e Hf] _ IH]; intros p Hne Hlen; [done|].
  cbn in *. subst fault. destruct (check_fails v t e p) as (q & -> & _ & Hq).
  destruct probes as [|probe probes].
  - rewrite decide_True; [|cbn in Hlen; lia]. eauto.
  - rewrite decide_False; [|cbn in Hlen; lia].
    apply IH; [done | cbn in *; lia].
Qed.

Lemma five_failures v probes p :
  connectionAttempts p = 0 →
  length probes = 5 →
  Forall (λ probe, is_Some probe.2) probes →
  (∀ k, k < 5 → ∃ p', checks v (take k probes) p = (Returned (), p') ∧
                      connectionAttempts p' = k) ∧
  (∃ p', checks v probes p = (Exited 1, p')).
Proof.
  intros Hzero Hlen Hfail. split.
  - intros k Hk.
    destruct (checks_below_maximum v (take k probes) p) as (p' & Hrun & Hcount).
    + by apply Forall_take.
    + rewrite length_take. lia.
    + exists p'. split; [done|]. rewrite Hcount, length_take. lia.
  - apply checks_reach_maximum; [done | | lia].
    intros ->. discriminate.
Qed.
End Monitor.

(** C2.  A run of failed probes begins at start-up or right after a probe
    that succeeded.  After any successful probe, from any reachable state,
    the failure counter is zero; and five failed probes in a row from there,
    or from start-up, leave the process running through the first four and
    end it at the fifth with exit code 1, which is not zero. *)
Theorem five_failed_probes_exit `{KeyReading} v p responseTime probes rows next :
  reachable v p →
  length probes = 5 →
  Forall (λ probe, is_Some probe.2) probes →
  (∃ p1, checkConnection v responseTime None p = (Returned (), p1) ∧
         connectionAttempts p1 = 0 ∧
         (∀ k, k < 5 → ∃ p', checks v (take k probes) p1 = (Returned (), p') ∧
                             connectionAttempts p' = k) ∧
         (∃ p', checks v probes p1 = (Exited 1, p'))) ∧
  ((∀ k, k < 5 → ∃ p', checks v (take k probes) (boot rows next) = (Returned (), p') ∧
                       connectionAttempts p' = k) ∧
   (∃ p', checks v probes (boot rows next) = (Exited 1, p'))) ∧
  (1 ≠ 0)%Z.
Proof.
  intros Hreach Hlen Hfail. split; [|split; [|done]].
  - destruct (check_succeeds v responseTime p) as (p1 & Hrun & Hup & Hcount).
    assert (connectionAttempts p1 = 0) as Hzero.
    { rewrite Hcount. destruct (isConnected p) eqn:Hflag; [|done].
      by apply (connected_means_no_attempts v). }
    exists p1. split; [done|]. split; [done|]. by apply five_failures.
  - by apply five_failures.
Qed.

Lemma five_failed_probes_exit_witness :
  let failed := (30, Some (mkError (Some "connect ECONNREFUSED"))) in
  ∃ p', checks (H:=decimal) pool (replicate 5 failed) (boot [] 1) = (Exited 1, p').
Proof.
  intros failed.
  apply (five_failed_probes_exit (H:=decimal) pool (boot [] 1) 12 (replicate 5 failed) [] 1).
  - constructor.
  - reflexivity.
  - repeat constructor; by eexists.
Defined.

(** C9.  In every reachable state, a raised [isConnected] flag comes with a
    zero counter; so a probe that succeeds leaves the counter at zero,
    whether or not it goes through the branch that clears it. *)
Theorem connected_flag_invariant `{KeyReading} v p responseTime :
  reachable v p →
  (isConnected p = true → connectionAttempts p = 0) ∧
  (∃ p', checkConnection v responseTime None p = (Returned (), p') ∧
         isConnected p' = true ∧ connectionAttempts p' = 0).
Proof.
  intros Hreach. split; [by apply (connected_means_no_attempts v)|].
  destruct (check_succeeds v responseTime p) as (p' & Hrun & Hup & Hcount).
  exists p'. split; [done|]. split; [done|].
  rewrite Hcount. destruct (isConnected p) eqn:Hflag; [|done].
  by apply (connected_means_no_attempts v).
Qed.

Lemma connected_flag_invariant_witness :
  let p1 := (checkConnection (H:=decimal) pool 12 None (boot [] 1)).2 in
  isConnected p1 = true ∧ connectionAttempts p1 = 0.
Proof.
  intros p1. split; [reflexivity|].
  apply (connected_flag_invariant (H:=decimal) pool p1 7).
  - apply (reachable_check pool (boot [] 1) 12 None p1); [constructor | reflexivity].
  - reflexivity.
Defined.

(** ** Status and failures *)


(** What holds of every route when the data layer raises an error: the
    handler returns a response (nothing is thrown on), the response is 500
    with a JSON object, exactly one round trip was made, and the table is as
    it was.  On the five item routes the object has the [error] field; on
    the status route it has it when the error has a message.  With or
    without a failure, a handler returns a response after exactly one round
    trip. *)
Lemma failures_are_answered `{KeyReading} v r fault e p :
  (∃ o p',
     handle v r (Some e) p = (Returned (mkResponse 500 (Object o)), p') ∧
     o !! "error" = match r with
                    | GET_status _ => JStr <$> message e
                    | _ => Some (JStr "Internal server error")
                    end ∧
     round_trips p' = S (round_trips p) ∧
     items p' = items p) ∧
  (∃ response p',
     handle v r fault p = (Returned response, p') ∧
     round_trips p' = S (round_trips p)).
Proof.
  split.
  { destruct (handle_fault v r e p) as (o & label & -> & Herr). by do 2 eexists. }
  destruct fault as [e'|].
  { destruct (handle_fault v r e' p) as (o & label & -> & Herr). by do 2 eexists. }
  destruct v, r; unfold handle;
    rewrite ?pool_get_item, ?pool_put_item, ?pool_delete_item, ?pool_post_items,
      ?hosted_get_item, ?hosted_put_item, ?hosted_delete_item, ?hosted_post_items;
    cbn zeta; try (by do 2 eexists).
  all: try (case_decide; [by do 2 eexists|]).
  all: by destruct (matching id (items p)) as [|? [|]]; do 2 eexists.
Qed.

(** C8.  The hosted variant, the probe of the status route failing with an
    error object that has no message: the handler catches it and answers
    500, but the body has [status], [message] and [timestamp] and no [error]
    field.  The five item routes answer the same error with 500 and
    [{error: "Internal server error"}]. *)
Theorem status_failure_without_error_field :
  let e := mkError None in
  let now := "2024-05-01T10:00:00.000Z" in
  let answer (r : Request) := (handle (H:=decimal) hosted r (Some e) (boot [sample] 2)).1 in
  let body : gmap string jsval :=
    {[ "status" := JStr "disconnected"; "message" := JStr "Database connection error";
       "timestamp" := JStr now ]} in
  answer (GET_status now) = Returned (mkResponse 500 (Object body)) ∧
  body !! "error" = None ∧
  Forall (λ r, answer r = Returned (mkResponse 500 (Object internal_server_error)))
         [GET_items; POST_items ∅; GET_item "1"; PUT_item "1" ∅; DELETE_item "1"].
Proof. by repeat split; repeat constructor. Qed.

(** ** The table under the routes *)

Section Table.
Context `{KeyReading}.

Lemma Forall2_fmap_self {A} (P : A → A → Prop) (f : A → A) (l : list A) :
  (∀ x, P x (f x)) → Forall2 P l (f <$> l).
Proof.
  intros HP. apply Forall2_fmap_r, Forall_Forall2_diag, Forall_forall. auto.
Qed.

Lemma same_capture_refl r : same_capture r r.
Proof. by repeat split. Qed.

(** The payload of a PUT has no key other than [name] and [description]. *)
Lemma put_payload_lookup name description key :
  key ≠ "name" → key ≠ "description" →
  literal [("name", name); ("description", description)] !! key = None.
Proof.
  intros Hn Hd. destruct name, description; cbn;
    by rewrite ?lookup_insert_ne, ?lookup_empty.
Qed.

Lemma put_payload_capture name description r :
  same_capture r (Hosted.patch (literal [("name", name); ("description", description)]) r).
Proof.
  unfold same_capture, Hosted.patch, Hosted.column. cbn -[literal].
  by rewrite !put_payload_lookup.
Qed.

(** No stored row answers to a path text that names a key not yet given out. *)
Lemma matching_fresh id p :
  keys_fresh p → names id (next_id p) → matching id (items p) = [].
Proof.
  unfold keys_fresh, matching. intros Hfresh Hname.
  induction Hfresh as [|r rows Hr _ IH]; [done|].
  rewrite filter_cons_False; [done|].
  intros Hm. apply Is_true_true, Hname in Hm. lia.
Qed.

Lemma matching_app id rows rows' :
  matching id (rows ++ rows') = matching id rows ++ matching id rows'.
Proof. apply filter_app. Qed.

Lemma matching_new_row id p row :
  keys_fresh p → names id (next_id p) → Item.id row = next_id p →
  matching id (items p ++ [row]) = [row].
Proof.
  intros Hfresh Hname Hid. rewrite matching_app, matching_fresh by done.
  unfold matching. rewrite filter_cons_True; [done|].
  apply Is_true_true, Hname. done.
Qed.

(** After a delete, no row answers to the deleted path text. *)
Lemma matching_deleted id rows :
  matching id (filter (λ r, ¬ id_matches id (Item.id r)) rows) = [].
Proof.
  unfold matching. induction rows as [|r rows IH]; [done|].
  destruct (id_matches id (Item.id r)) eqn:Hm.
  - rewrite (filter_cons_False _ r); [done|].
    intros Hn. by apply Hn, Is_true_true.
  - rewrite (filter_cons_True _ r); [|by apply Is_true_false].
    rewrite filter_cons_False; [done|]. by apply Is_true_false.
Qed.
End Table.

(** The frame of a PUT whose body has scalar fields.  Such a PUT, whether or
    not its round trip fails, leaves the table with the same rows in the
    same order, each with its key and its [location], [contacts], [image],
    [call_logs] and [sms] as they were (so only [name] and [description] can
    differ), and each row the path text does not match exactly as it was.
    This is not the frame of every PUT: the pooled handler hands [name] and
    [description] to the driver unchecked, and a field that is an object
    reaches the statement as a list of assignments. *)
Theorem put_changes_only_name_description `{KeyReading} v id req_body fault p :
  Forall2 (λ r r', same_capture r r' ∧ (id_matches id (Item.id r) = false → r' = r))
          (items p) (items (handle v (PUT_item id req_body) fault p).2).
Proof.
  assert (Forall2 (λ r r', same_capture r r' ∧ (id_matches id (Item.id r) = false → r' = r))
                  (items p) (items p)) as Hsame.
  { apply Forall_Forall2_diag, Forall_forall. intros r _. split; [apply same_capture_refl|done]. }
  destruct fault as [e|].
  { by destruct (handle_fault v (PUT_item id req_body) e p) as (o & line & -> & _). }
  destruct v; unfold handle.
  - rewrite pool_put_item. cbn. apply Forall2_fmap_self. intros r.
    destruct (id_matches id (Item.id r)); [|split; [apply same_capture_refl|done]].
    split; [by repeat split|done].
  - rewrite hosted_put_item. cbn zeta. case_decide; [done|].
    destruct (matching id (items p)) as [|row [|]]; try done.
    cbn. apply Forall2_fmap_self. intros r.
    destruct (id_matches id (Item.id r)); [|split; [apply same_capture_refl|done]].
    split; [apply put_payload_capture|done].
Qed.

(** C5.  A POST whose body carries the five fields as strings answers 201
    with an object that has the generated key under [id] and the five
    strings; a GET on the path text that names that key then answers 200
    with an object that has the same key and the same five strings. *)
Theorem post_then_get `{KeyReading} v p id req_body L C I CL S :
  keys_fresh p →
  names id (next_id p) →
  req_body !! "location" = Some (JStr L) →
  req_body !! "contacts" = Some (JStr C) →
  req_body !! "image" = Some (JStr I) →
  req_body !! "call_logs" = Some (JStr CL) →
  req_body !! "sms" = Some (JStr S) →
  ∃ created p1 fetched p2,
    handle v (POST_items req_body) None p = (Returned (mkResponse 201 (Object created)), p1) ∧
    handle v (GET_item id) None p1 = (Returned (mkResponse 200 (Object fetched)), p2) ∧
    Forall (λ o : gmap string jsval,
              o !! "id" = Some (JNum (next_id p)) ∧
              o !! "location" = Some (JStr L) ∧ o !! "contacts" = Some (JStr C) ∧
              o !! "image" = Some (JStr I) ∧ o !! "call_logs" = Some (JStr CL) ∧
              o !! "sms" = Some (JStr S))
           [created; fetched].
Proof.
  intros Hfresh Hname Hl Hc Hi Hcl Hs. destruct v; unfold handle.
  - rewrite pool_post_items. do 4 eexists. split; [reflexivity|].
    rewrite pool_get_item. cbn [items with_items tick].
    rewrite (matching_new_row id p) by done. split; [reflexivity|].
    rewrite Hl, Hc, Hi, Hcl, Hs. by repeat constructor.
  - rewrite hosted_post_items. cbn zeta. do 4 eexists. split; [reflexivity|].
    rewrite hosted_get_item. cbn [items with_items tick].
    rewrite (matching_new_row id p) by done. split; [reflexivity|].
    rewrite Hl, Hc, Hi, Hcl, Hs. by repeat constructor.
Qed.

(** Under the decimal reading a numeral names its key. *)
Lemma decimal_names key : names (H:=decimal) (pretty key) key.
Proof.
  intros k. unfold id_matches, decimal. rewrite bool_decide_eq_true. split.
  - intros Heq. symmetry. by apply (inj pretty).
  - by intros ->.
Qed.

Lemma post_then_get_witness :
  let req_body : gmap string jsval :=
    {[ "location" := JStr "L"; "contacts" := JStr "C"; "image" := JStr "I";
       "call_logs" := JStr "CL"; "sms" := JStr "S" ]} in
  ∃ created p1 fetched p2,
    handle (H:=decimal) hosted (POST_items req_body) None (boot [sample] 2) =
      (Returned (mkResponse 201 (Object created)), p1) ∧
    handle (H:=decimal) hosted (GET_item "2") None p1 =
      (Returned (mkResponse 200 (Object fetched)), p2) ∧
    Forall (λ o : gmap string jsval,
              o !! "id" = Some (JNum 2) ∧
              o !! "location" = Some (JStr "L") ∧ o !! "contacts" = Some (JStr "C") ∧
              o !! "image" = Some (JStr "I") ∧ o !! "call_logs" = Some (JStr "CL") ∧
              o !! "sms" = Some (JStr "S"))
           [created; fetched].
Proof.
  intros req_body.
  apply (post_then_get (H:=decimal) hosted (boot [sample] 2) "2" req_body "L" "C" "I" "CL" "S").
  - by repeat constructor.
  - exact (decimal_names 2).
  - reflexivity.
  - reflexivity.
  - reflexivity.
  - reflexivity.
  - reflexivity.
Defined.

(** ** Ids that match nothing, and deleted ids *)

Section Absent.
Context `{KeyReading}.

(** The pooled variant answers 404 on all three routes when the path text
    matches no row. *)
Lemma pool_absent_id id req_body p :
  matching id (items p) = [] →
  ∀ r, r ∈ [GET_item id; PUT_item id req_body; DELETE_item id] →
       ∃ p', handle pool r None p =
               (Returned (mkResponse 404 (Object item_not_found)), p').
Proof.
  intros Hnone r Hr. repeat (apply elem_of_cons in Hr as [->|Hr]);
    [| | |by apply elem_of_nil in Hr]; unfold handle;
    rewrite ?pool_get_item, ?pool_put_item, ?pool_delete_item, Hnone; by eexists.
Qed.

(** The hosted variant on a path text that matches no row: the delete
    answers 204, the read and the update answer 500. *)
Lemma hosted_absent_id id req_body p :
  matching id (items p) = [] →
  (∃ p', handle hosted (DELETE_item id) None p = (Returned (mkResponse 204 Empty), p')) ∧
  ∀ r, r ∈ [GET_item id; PUT_item id req_body] →
       ∃ p', handle hosted r None p =
               (Returned (mkResponse 500 (Object internal_server_error)), p').
Proof.
  intros Hnone. split; [by eexists|]. intros r Hr.
  repeat (apply elem_of_cons in Hr as [->|Hr]);
    [| |by apply elem_of_nil in Hr]; unfold handle;
    rewrite ?hosted_get_item, ?hosted_put_item, ?Hnone; cbn zeta;
    try case_decide; by eexists.
Qed.

(** The hosted delete has no 404 answer at all. *)
Lemma hosted_delete_never_404 id fault p :
  status <$> (match (handle hosted (DELETE_item id) fault p).1 with
              | Returned response => Some response
              | _ => None
              end) ∈ [Some 204; Some 500].
Proof.
  destruct fault as [e|].
  - destruct (handle_fault hosted (DELETE_item id) e p) as (o & line & -> & _).
    cbn. set_solver.
  - unfold handle. rewrite hosted_delete_item. cbn. set_solver.
Qed.

(** In the pooled variant a delete of a matched id answers 204 with no
    body, and a read of the same id then answers 404. *)
Lemma pool_delete_then_get id p :
  matching id (items p) ≠ [] →
  ∃ p1 p2,
    handle pool (DELETE_item id) None p = (Returned (mkResponse 204 Empty), p1) ∧
    handle pool (GET_item id) None p1 =
      (Returned (mkResponse 404 (Object item_not_found)), p2).
Proof.
  intros Hsome. unfold handle. rewrite pool_delete_item.
  rewrite decide_False by (by destruct (matching id (items p))).
  do 2 eexists. split; [reflexivity|].
  rewrite pool_get_item. cbn [items with_items tick]. by rewrite matching_deleted.
Qed.

(** In the hosted variant the delete answers 204 with no body as well, but
    the read that follows answers 500. *)
Lemma hosted_delete_then_get id p :
  ∃ p1 p2,
    handle hosted (DELETE_item id) None p = (Returned (mkResponse 204 Empty), p1) ∧
    handle hosted (GET_item id) None p1 =
      (Returned (mkResponse 500 (Object internal_server_error)), p2).
Proof.
  unfold handle. rewrite hosted_delete_item. do 2 eexists. split; [reflexivity|].
  rewrite hosted_get_item. cbn [items with_items tick]. by rewrite matching_deleted.
Qed.
End Absent.

(** C1.  On the table of one row with key 1, the path text [7] matches no
    row.  The pooled variant answers 404 with [{error: "Item not found"}] on
    GET, PUT and DELETE.  The hosted variant does not: its DELETE answers 204
    with no body, and its GET and PUT answer 500. *)
Theorem absent_id_responses :
  let p := boot [sample] 2 in
  let req_body : gmap string jsval := {[ "name" := JStr "N"; "description" := JStr "D" ]} in
  let answer (v : Variant) (r : Request) := (handle (H:=decimal) v r None p).1 in
  matching (H:=decimal) "7" (items p) = [] ∧
  answer pool (GET_item "7") = Returned (mkResponse 404 (Object item_not_found)) ∧
  answer pool (PUT_item "7" req_body) = Returned (mkResponse 404 (Object item_not_found)) ∧
  answer pool (DELETE_item "7") = Returned (mkResponse 404 (Object item_not_found)) ∧
  answer hosted (DELETE_item "7") = Returned (mkResponse 204 Empty) ∧
  answer hosted (GET_item "7") = Returned (mkResponse 500 (Object internal_server_error)) ∧
  answer hosted (PUT_item "7" req_body) =
    Returned (mkResponse 500 (Object internal_server_error)).
Proof.
  intros p req_body answer.
  assert (matching (H:=decimal) "7" (items p) = []) as Hnone by by vm_compute.
  split; [done|].
  pose proof (pool_absent_id (H:=decimal) "7" req_body p Hnone) as Hpool.
  destruct (hosted_absent_id (H:=decimal) "7" req_body p Hnone) as [[? Hdel] Hhosted].
  destruct (Hpool (GET_item "7")) as [? Hg]; [set_solver|].
  destruct (Hpool (PUT_item "7" req_body)) as [? Hp]; [set_solver|].
  destruct (Hpool (DELETE_item "7")) as [? Hd]; [set_solver|].
  destruct (Hhosted (GET_item "7")) as [? Hg']; [set_solver|].
  destruct (Hhosted (PUT_item "7" req_body)) as [? Hp']; [set_solver|].
  unfold answer. by rewrite Hg, Hp, Hd, Hdel, Hg', Hp'.
Qed.

(** C6.  On the table of one row with key 1, DELETE on [1] answers 204
    with no body in both variants.  The GET on [1] that follows answers 404
    in the pooled variant; in the hosted variant it answers 500 with
    [{error: "Internal server error"}], not 404. *)
Theorem get_after_delete :
  let p := boot [sample] 2 in
  let answers (v : Variant) :=
    let deleted := handle (H:=decimal) v (DELETE_item "1") None p in
    (deleted.1, items deleted.2, (handle (H:=decimal) v (GET_item "1") None deleted.2).1) in
  matching (H:=decimal) "1" (items p) = [sample] ∧
  answers pool = (Returned (mkResponse 204 Empty), [],
                  Returned (mkResponse 404 (Object item_not_found))) ∧
  answers hosted = (Returned (mkResponse 204 Empty), [],
                    Returned (mkResponse 500 (Object internal_server_error))).
Proof.
  intros p answers.
  assert (matching (H:=decimal) "1" (items p) = [sample]) as Hrow by by vm_compute.
  split; [done|]. unfold answers. split.
  - destruct (pool_delete_then_get (H:=decimal) "1" p) as (p1 & p2 & Hdel & Hget).
    { by rewrite Hrow. }
    rewrite Hdel. cbn [fst snd]. rewrite Hget. cbn [fst].
    unfold handle in Hdel. rewrite pool_delete_item in Hdel.
    apply (f_equal snd) in Hdel. cbn [snd] in Hdel. subst p1. by vm_compute.
  - destruct (hosted_delete_then_get (H:=decimal) "1" p) as (p1 & p2 & Hdel & Hget).
    rewrite Hdel. cbn [fst snd]. rewrite Hget. cbn [fst].
    unfold handle in Hdel. rewrite hosted_delete_item in Hdel.
    apply (f_equal snd) in Hdel. cbn [snd] in Hdel. subst p1. by vm_compute.
Qed.

(** ** Updates *)

Section Put.
Context `{KeyReading}.

(** What a field left out of the payload does to a row: nothing. *)
Lemma patch_omitted name description r :
  (name = None →
   Item.name (Hosted.patch (literal [("name", name); ("description", description)]) r)
     = Item.name r) ∧
  (description = None →
   Item.description (Hosted.patch (literal [("name", name); ("description", description)]) r)
     = Item.description r).
Proof. split; intros ->; [by destruct description | by destruct name]. Qed.

(** What a field present in the payload does to a row: it is stored. *)
Lemma patch_supplied name description r :
  Item.name (Hosted.patch (literal [("name", name); ("description", description)]) r)
    = default (Item.name r) name ∧
  Item.description (Hosted.patch (literal [("name", name); ("description", description)]) r)
    = default (Item.description r) description.
Proof. by destruct name, description. Qed.

(** The handlers keep generated keys fresh. *)
Lemma handle_keeps_fresh v r fault p :
  keys_fresh p → keys_fresh (handle v r fault p).2.
Proof.
  intros Hfresh. destruct fault as [e|].
  { by destruct (handle_fault v r e p) as (o & line & -> & _). }
  assert (∀ f : Item.t → Item.t, (∀ x, Item.id (f x) = Item.id x) →
            Forall (λ x, (Item.id x < next_id p)%Z) (f <$> items p)) as Hmap.
  { intros f Hf. apply Forall_fmap. eapply Forall_impl; [exact Hfresh|].
    intros x Hx. cbn. by rewrite Hf. }
  assert (∀ row, Item.id row = next_id p →
            Forall (λ x, (Item.id x < next_id p + 1)%Z) (items p ++ [row])) as Hadd.
  { intros row Hrow. apply Forall_app. split.
    - eapply Forall_impl; [exact Hfresh|]. intros x Hx. cbn in Hx. lia.
    - repeat constructor. lia. }
  assert (∀ id, Forall (λ x, (Item.id x < next_id p)%Z)
                  (filter (λ r, ¬ id_matches id (Item.id r)) (items p))) as Hdel.
  { intros id. apply Forall_forall. intros x [_ Hx]%list_elem_of_filter.
    unfold keys_fresh in Hfresh. rewrite Forall_forall in Hfresh. auto. }
  destruct v, r; unfold handle, keys_fresh;
    rewrite ?pool_get_item, ?pool_put_item, ?pool_delete_item, ?pool_post_items,
      ?hosted_get_item, ?hosted_put_item, ?hosted_delete_item, ?hosted_post_items;
    cbn zeta; try done.
  - by apply Hadd.
  - apply Hmap. intros x. by destruct (id_matches id (Item.id x)).
  - apply Hdel.
  - by apply Hadd.
  - by destruct (matching id (items p)) as [|? [|]].
  - case_decide; [done|]. destruct (matching id (items p)) as [|? [|]]; try done.
    apply Hmap. intros x. by destruct (id_matches id (Item.id x)).
  - apply Hdel.
Qed.
End Put.

(** C3, as the code has it.  A PUT with [name: N] and [description: D] on a
    path text that matches a stored row answers 200.  In the pooled variant
    the body is exactly [{id, name: N, description: D}], [id] being the path
    text.  In the hosted variant, the text matching that one row, the body
    is the whole updated row: its key, its five capture fields, [name: N]
    and [description: D]. *)
Theorem put_existing_response `{KeyReading} id req_body N D p row rest :
  req_body !! "name" = Some (JStr N) →
  req_body !! "description" = Some (JStr D) →
  matching id (items p) = row :: rest →
  (∃ p', handle pool (PUT_item id req_body) None p =
           (Returned (mkResponse 200 (Object {[ "id" := JStr id; "name" := JStr N;
                                                "description" := JStr D ]})), p')) ∧
  (rest = [] →
   ∃ p', handle hosted (PUT_item id req_body) None p =
           (Returned (mkResponse 200 (Object
              {[ "id" := JNum (Item.id row); "location" := Item.location row;
                 "contacts" := Item.contacts row; "image" := Item.image row;
                 "call_logs" := Item.call_logs row; "sms" := Item.sms row;
                 "name" := JStr N; "description" := JStr D ]})), p')).
Proof.
  intros Hn Hd Hrow. unfold handle. split.
  - rewrite pool_put_item, Hrow, Hn, Hd. by eexists.
  - intros ->. rewrite hosted_put_item, Hrow, Hn, Hd. cbn zeta.
    rewrite decide_False by apply insert_non_empty. by eexists.
Qed.

Lemma put_existing_response_witness :
  let req_body : gmap string jsval := {[ "name" := JStr "N"; "description" := JStr "D" ]} in
  (∃ p', handle (H:=decimal) pool (PUT_item "1" req_body) None (boot [sample] 2) =
           (Returned (mkResponse 200 (Object {[ "id" := JStr "1"; "name" := JStr "N";
                                                "description" := JStr "D" ]})), p')) ∧
  (∃ p', handle (H:=decimal) hosted (PUT_item "1" req_body) None (boot [sample] 2) =
           (Returned (mkResponse 200 (Object
              {[ "id" := JNum 1; "location" := JStr "L"; "contacts" := JStr "C";
                 "image" := JStr "I"; "call_logs" := JStr "CL"; "sms" := JStr "S";
                 "name" := JStr "N"; "description" := JStr "D" ]})), p')).
Proof.
  intros req_body.
  destruct (put_existing_response (H:=decimal) "1" req_body "N" "D" (boot [sample] 2) sample [])
    as [Hpool Hhosted].
  - reflexivity.
  - reflexivity.
  - by vm_compute.
  - split; [exact Hpool | exact (Hhosted eq_refl)].
Defined.

(** C3, counterexample to the sentence as written: in the hosted variant
    the body of the answer to a PUT on a stored row has eight fields, the
    row's [location] among them; it is not an object of the three fields
    [id], [name], [description]. *)
Lemma hosted_put_returns_whole_row :
  let req_body : gmap string jsval := {[ "name" := JStr "N"; "description" := JStr "D" ]} in
  ∃ o p',
    matching (H:=decimal) "1" [sample] = [sample] ∧
    handle (H:=decimal) hosted (PUT_item "1" req_body) None (boot [sample] 2) =
      (Returned (mkResponse 200 (Object o)), p') ∧
    o !! "location" = Some (JStr "L") ∧
    size o = 8 ∧
    ∀ i, o ≠ {[ "id" := i; "name" := JStr "N"; "description" := JStr "D" ]}.
Proof.
  intros req_body. unfold handle. rewrite hosted_put_item. cbn zeta.
  rewrite decide_False by apply insert_non_empty.
  replace (matching (H:=decimal) "1" (items (boot [sample] 2))) with [sample] by by vm_compute.
  do 2 eexists. split; [by vm_compute|]. split; [reflexivity|].
  split; [by vm_compute|]. split; [by vm_compute|].
  intros i Heq. apply (f_equal (lookup "location")) in Heq. by vm_compute in Heq.
Qed.

(** C10, as the code has it.  In the pooled variant a PUT writes both
    columns of every row the path text matches, and a field the body leaves
    out is written as NULL.  In the hosted variant a field the body leaves
    out is not written: every row keeps what it held in that column, and on
    the one row a successful update matches the fields the body has are
    stored. *)
Theorem put_omitted_fields `{KeyReading} id req_body fault p :
  Forall2 (λ r r', id_matches id (Item.id r) = true →
                   Item.name r' = default JNull (req_body !! "name") ∧
                   Item.description r' = default JNull (req_body !! "description"))
          (items p) (items (handle pool (PUT_item id req_body) None p).2) ∧
  Forall2 (λ r r', (req_body !! "name" = None → Item.name r' = Item.name r) ∧
                   (req_body !! "description" = None →
                    Item.description r' = Item.description r))
          (items p) (items (handle hosted (PUT_item id req_body) fault p).2) ∧
  (∀ response p',
     handle hosted (PUT_item id req_body) None p = (Returned response, p') →
     status response = 200 →
     Forall2 (λ r r', id_matches id (Item.id r) = true →
                      Item.name r' = default (Item.name r) (req_body !! "name") ∧
                      Item.description r' =
                        default (Item.description r) (req_body !! "description"))
             (items p) (items p')).
Proof.
  assert (∀ P : Item.t → Item.t → Prop, (∀ r, P r r) → Forall2 P (items p) (items p)) as Hsame.
  { intros P HP. apply Forall_Forall2_diag, Forall_forall. auto. }
  unfold handle. split; [|split].
  - rewrite pool_put_item. cbn. apply Forall2_fmap_self. intros r Hm. by rewrite Hm.
  - destruct fault as [e|].
    { destruct (handle_fault hosted (PUT_item id req_body) e p) as (o & line & Hrun & _).
      unfold handle in Hrun. rewrite Hrun. by apply Hsame. }
    rewrite hosted_put_item. cbn zeta. case_decide; [by apply Hsame|].
    destruct (matching id (items p)) as [|row [|]]; try by apply Hsame.
    cbn. apply Forall2_fmap_self. intros r.
    destruct (id_matches id (Item.id r)); [apply patch_omitted | done].
  - intros response p'. rewrite hosted_put_item. cbn zeta. case_decide.
    { by intros [= <- <-]. }
    destruct (matching id (items p)) as [|row [|]]; try by intros [= <- <-].
    intros [= <- <-] _. cbn. apply Forall2_fmap_self. intros r Hm. rewrite Hm.
    apply patch_supplied.
Qed.

(** C10, counterexample to the sentence as written: in the hosted variant
    a PUT whose body has only [description] answers 200 and leaves the
    stored [name] as it was. *)
Lemma hosted_put_keeps_omitted_name :
  let req_body : gmap string jsval := {[ "description" := JStr "D" ]} in
  ∃ response p',
    req_body !! "name" = None ∧
    Item.name <$> [sample] = [JStr "old"] ∧
    handle (H:=decimal) hosted (PUT_item "1" req_body) None (boot [sample] 2) =
      (Returned response, p') ∧
    status response = 200 ∧
    Item.name <$> items p' = [JStr "old"] ∧
    Item.description <$> items p' = [JStr "D"].
Proof.
  intros req_body. unfold handle. rewrite hosted_put_item. cbn zeta.
  rewrite decide_False by apply insert_non_empty.
  replace (matching (H:=decimal) "1" (items (boot [sample] 2))) with [sample] by by vm_compute.
  do 2 eexists. split; [reflexivity|]. split; [reflexivity|]. split; [reflexivity|].
  split; [reflexivity|]. by vm_compute.
Qed.

(** * Further properties of the two servers *)

Section More.
Context `{KeyReading}.

(** A handler always returns a response. *)
Lemma handle_returns v r fault p :
  ∃ response p', handle v r fault p = (Returned response, p').
Proof.
  destruct fault as [e|].
  { destruct (handle_fault v r e p) as (o & line & -> & _). by do 2 eexists. }
  destruct v, r; unfold handle;
    rewrite ?pool_get_item, ?pool_put_item, ?pool_delete_item, ?pool_post_items,
      ?hosted_get_item, ?hosted_put_item, ?hosted_delete_item, ?hosted_post_items;
    cbn zeta; try (by do 2 eexists).
  all: try (case_decide; [by do 2 eexists|]).
  all: by destruct (matching id (items p)) as [|? [|]]; do 2 eexists.
Qed.

(** A failed round trip leaves the table as it was. *)
Lemma handle_fault_table v r e p : table (handle v r (Some e) p).2 = table p.
Proof. by destruct (handle_fault v r e p) as (o & line & -> & _). Qed.

(** A path text that matches no row: the update and the delete statements
    leave every row in place. *)
Lemma no_match_fmap id (f : Item.t → Item.t) rows :
  matching id rows = [] →
  (λ r, if id_matches id (Item.id r) then f r else r) <$> rows = rows.
Proof.
  unfold matching. induction rows as [|r rows IH]; [done|]. intros Hnone.
  destruct (id_matches id (Item.id r)) eqn:Hm.
  - rewrite filter_cons_True in Hnone; [done | by apply Is_true_true].
  - rewrite filter_cons_False in Hnone by (by apply Is_true_false).
    cbn. rewrite Hm. f_equal. by apply IH.
Qed.

Lemma no_match_filter id rows :
  matching id rows = [] →
  filter (λ r, ¬ id_matches id (Item.id r)) rows = rows.
Proof.
  unfold matching. induction rows as [|r rows IH]; [done|]. intros Hnone.
  destruct (id_matches id (Item.id r)) eqn:Hm.
  - rewrite filter_cons_True in Hnone; [done | by apply Is_true_true].
  - rewrite filter_cons_False in Hnone by (by apply Is_true_false).
    rewrite filter_cons_True by (by apply Is_true_false). f_equal. by apply IH.
Qed.

(** Rewriting rows without touching their keys commutes with the filter. *)
Lemma matching_fmap id (f : Item.t → Item.t) rows :
  (∀ r, Item.id (f r) = Item.id r) →
  matching id (f <$> rows) = f <$> matching id rows.
Proof.
  intros Hf. unfold matching. induction rows as [|r rows IH]; [done|].
  rewrite fmap_cons. destruct (id_matches id (Item.id r)) eqn:Hm.
  - rewrite (filter_cons_True _ (f r)) by (rewrite Hf; by apply Is_true_true).
    rewrite (filter_cons_True _ r) by (by apply Is_true_true).
    by rewrite fmap_cons, IH.
  - rewrite (filter_cons_False _ (f r)) by (rewrite Hf; by apply Is_true_false).
    by rewrite (filter_cons_False _ r) by (by apply Is_true_false).
Qed.

Lemma with_items_table rows next p : table (with_items rows next p) = (rows, next).
Proof. done. Qed.

Lemma tick_table p : table (tick p) = table p.
Proof. done. Qed.
End More.

(** X1.  In the pooled variant, with the round trip succeeding, GET, PUT
    and DELETE on a path text answer 404 exactly when the text matches no
    stored row; the 404 body is [{error: "Item not found"}] and the table is
    left as it was. *)
Theorem pool_not_found_iff `{KeyReading} id req_body p :
  Forall (λ r, ∃ response p',
            handle pool r None p = (Returned response, p') ∧
            (status response = 404 ↔ matching id (items p) = []) ∧
            (status response = 404 →
             body response = Object item_not_found ∧ table p' = table p))
         [GET_item id; PUT_item id req_body; DELETE_item id].
Proof.
  repeat constructor; unfold handle.
  - rewrite pool_get_item. do 2 eexists. split; [reflexivity|].
    destruct (matching id (items p)); cbn; (split; [by split|done]).
  - rewrite pool_put_item. do 2 eexists. split; [reflexivity|].
    destruct (matching id (items p)) eqn:Hm; cbn; [|split; [split|]; done].
    split; [done|]. intros _. split; [done|].
    unfold table. cbn. by rewrite no_match_fmap.
  - rewrite pool_delete_item. do 2 eexists. split; [reflexivity|].
    destruct (matching id (items p)) eqn:Hm; cbn; [|split; [split|]; done].
    split; [done|]. intros _. split; [done|].
    unfold table. cbn. by rewrite no_match_filter.
Qed.

(** X2.  The hosted variant never answers 404: on every route, whatever the
    path text, the body and the fate of the round trip, the handler returns
    a response whose status is 200, 201, 204 or 500. *)
Theorem hosted_never_404 `{KeyReading} r fault p :
  ∃ response p',
    handle hosted r fault p = (Returned response, p') ∧
    status response ∈ [200; 201; 204; 500].
Proof.
  destruct fault as [e|].
  { destruct (handle_fault hosted r e p) as (o & line & -> & _).
    do 2 eexists. split; [done|]. set_solver. }
  destruct r; unfold handle;
    rewrite ?hosted_get_item, ?hosted_put_item, ?hosted_delete_item, ?hosted_post_items;
    cbn zeta.
  1-3,6: do 2 eexists; (split; [reflexivity|]); cbn; set_solver.
  - destruct (matching id (items p)) as [|? [|]]; do 2 eexists;
      (split; [reflexivity|]); cbn; set_solver.
  - case_decide; [|destruct (matching id (items p)) as [|? [|]]]; do 2 eexists;
      (split; [reflexivity|]); cbn; set_solver.
Qed.

(** X3.  In the hosted variant a DELETE whose round trip succeeds answers
    204 with no body whether or not the path text matches a row, and leaves
    exactly the rows the text does not match. *)
Theorem hosted_delete_always_204 `{KeyReading} id p :
  ∃ p', handle hosted (DELETE_item id) None p = (Returned (mkResponse 204 Empty), p') ∧
        items p' = filter (λ r, ¬ id_matches id (Item.id r)) (items p) ∧
        matching id (items p') = [] ∧
        next_id p' = next_id p.
Proof.
  unfold handle. rewrite hosted_delete_item. eexists. split; [reflexivity|].
  cbn. split; [done|]. split; [apply matching_deleted | done].
Qed.

Section Composition.
Context `{KeyReading}.

(** What the hosted insert stores is what the SQL insert stores. *)
Lemma hosted_inserted_row (location contacts image call_logs sms : option jsval) key :
  Hosted.patch (literal [("location", location); ("contacts", contacts); ("image", image);
                         ("call_logs", call_logs); ("sms", sms)])
               (Item.mk key JNull JNull JNull JNull JNull JNull JNull) =
  Item.mk key (Pool.escape location) (Pool.escape contacts) (Pool.escape image)
          (Pool.escape call_logs) (Pool.escape sms) JNull JNull.
Proof. by destruct location, contacts, image, call_logs, sms. Qed.

(** With both fields present the hosted update writes what the SQL update
    writes. *)
Lemma hosted_updated_row name description r :
  Hosted.patch (literal [("name", Some name); ("description", Some description)]) r =
    Pool.set_name_description name description r.
Proof. reflexivity. Qed.

(** Writing a payload twice is writing it once. *)
Lemma patch_twice payload r :
  Hosted.patch payload (Hosted.patch payload r) = Hosted.patch payload r.
Proof.
  unfold Hosted.patch, Hosted.column. cbn.
  by destruct (payload !! "location"), (payload !! "contacts"), (payload !! "image"),
       (payload !! "call_logs"), (payload !! "sms"), (payload !! "name"),
       (payload !! "description").
Qed.

(** Rewriting the matched rows twice, keys untouched, is rewriting them once. *)
Lemma rewrite_twice id (f : Item.t → Item.t) (rows : list Item.t) :
  (∀ r, Item.id (f r) = Item.id r) → (∀ r, f (f r) = f r) →
  let g := λ r, if id_matches id (Item.id r) then f r else r in
  g <$> (g <$> rows) = g <$> rows.
Proof.
  intros Hid Hff g. rewrite <-list_fmap_compose. apply list_fmap_ext. intros _ r _.
  unfold g, compose. destruct (id_matches id (Item.id r)) eqn:Hm; rewrite ?Hid, Hm; auto.
Qed.

Lemma patch_key payload r : Item.id (Hosted.patch payload r) = Item.id r.
Proof. done. Qed.

Lemma matching_matches id rows row : row ∈ matching id rows → id_matches id (Item.id row) = true.
Proof. intros [Hm _]%list_elem_of_filter. by apply Is_true_true. Qed.

(** What a run of checks shows of the monitor depends on the flag and the
    counter it starts from, and on nothing else of the process. *)
Lemma checks_monitor_only v probes p q :
  isConnected p = isConnected q →
  connectionAttempts p = connectionAttempts q →
  monitor_view (checks v probes p) = monitor_view (checks v probes q).
Proof.
  revert p q. induction probes as [|[t fault] probes IH]; intros p q Hflag Hcount.
  { unfold monitor_view. cbn. by rewrite Hflag, Hcount. }
  cbn. destruct fault as [e|].
  - destruct (check_fails v t e p) as (p' & -> & Hp1 & Hp2).
    destruct (check_fails v t e q) as (q' & -> & Hq1 & Hq2).
    rewrite <-Hcount. case_decide.
    + unfold monitor_view. cbn. by rewrite Hp1, Hp2, Hq1, Hq2, Hcount.
    + apply IH; congruence.
  - destruct (check_succeeds v t p) as (p' & -> & Hp1 & Hp2).
    destruct (check_succeeds v t q) as (q' & -> & Hq1 & Hq2).
    apply IH; [congruence|]. rewrite Hp2, Hq2, Hflag, Hcount. done.
Qed.
End Composition.


(** X5.  The status route, the list route and the read of one item never
    write to the table, in either variant, whatever the fate of the round
    trip; neither does a connection check. *)
Theorem reads_leave_table `{KeyReading} v now id responseTime fault p :
  Forall (λ r, table (handle v r fault p).2 = table p)
         [GET_status now; GET_items; GET_item id] ∧
  table (checkConnection v responseTime fault p).2 = table p.
Proof.
  split.
  - destruct fault as [e|].
    { repeat constructor; apply handle_fault_table. }
    repeat constructor; destruct v; unfold handle;
      rewrite ?pool_get_item, ?hosted_get_item; try done.
    by destruct (matching id (items p)) as [|? [|]].
  - destruct (check_keeps_table v responseTime fault p) as [Hrows Hnext].
    unfold table. by rewrite Hrows, Hnext.
Qed.

(** X7.  Requests do not move the monitor: over any sequence of requests
    and connection checks, the exit code (if the process is gone), the
    [isConnected] flag and the failure counter are what the connection
    checks alone would have made them.  So when the checks among the events
    after start-up are five failed probes, the process ends with exit code
    1, whatever requests were served in between. *)
Theorem traffic_does_not_move_monitor `{KeyReading} v events p :
  monitor_view (run v events p) = monitor_view (checks v (probes events) p) ∧
  (∀ rows next,
     p = boot rows next →
     length (probes events) = 5 →
     Forall (λ probe, is_Some probe.2) (probes events) →
     (run v events p).1 = Exited 1).
Proof.
  assert (∀ events p,
            monitor_view (run v events p) = monitor_view (checks v (probes events) p)) as Hview.
  { clear events p.
    induction events as [|[t fault|r fault] events IH]; intros p; [done| |].
    - cbn. destruct (checkConnection v t fault p) as [[[]|e|code] p']; [apply IH|done|done].
    - cbn. destruct (handle_keeps_monitor v r fault p) as [Hflag Hcount].
      destruct (handle_returns v r fault p) as (response & p' & Hstep).
      rewrite Hstep in *. cbn in Hflag, Hcount.
      rewrite <-(checks_monitor_only v (probes events) p' p) by done.
      rewrite <-IH. by destruct (run v events p') as [[responses|e|code] p'']. }
  split; [apply Hview|].
  intros rows next -> Hlen Hfail.
  destruct (five_failures v (probes events) (boot rows next)) as [_ [p' Hexit]]; try done.
  specialize (Hview events (boot rows next)). rewrite Hexit in Hview.
  unfold monitor_view in Hview. cbn in Hview.
  destruct (run v events (boot rows next)) as [[responses|e|code] q]; cbn in *; congruence.
Qed.

(** X8.  In every reachable state the failure counter is below the maximum
    of 5.  A connection check ends the process only with exit code 1, only
    when its probe failed, and only when the counter stood at 4. *)
Theorem counter_below_maximum `{KeyReading} v p responseTime fault :
  reachable v p →
  connectionAttempts p < 5 ∧
  ∀ code p', checkConnection v responseTime fault p = (Exited code, p') →
             code = 1%Z ∧ is_Some fault ∧ connectionAttempts p = 4.
Proof.
  intros Hreach.
  assert (connectionAttempts p < 5) as Hbound.
  { clear responseTime fault.
    induction Hreach as [rows next | p t fault p' _ IH Hstep | p r fault resp p' _ IH Hstep].
    - cbn. lia.
    - destruct fault as [e|].
      + destruct (check_fails v t e p) as (q & Hq & _ & Hcount).
        rewrite Hq in Hstep. case_decide; simplify_eq. lia.
      + destruct (check_succeeds v t p) as (q & Hq & _ & Hcount).
        rewrite Hq in Hstep. simplify_eq. rewrite Hcount. destruct (isConnected p); lia.
    - destruct (handle_keeps_monitor v r fault p) as [_ Hcount].
      rewrite Hstep in Hcount. cbn in Hcount. lia. }
  split; [done|]. intros code p' Hexit. destruct fault as [e|].
  - destruct (check_fails v responseTime e p) as (q & Hq & _).
    rewrite Hq in Hexit. case_decide; simplify_eq. split; [done|]. split; [by eexists | lia].
  - destruct (check_succeeds v responseTime p) as (q & Hq & _).
    rewrite Hq in Hexit. simplify_eq.
Qed.

Lemma counter_below_maximum_witness :
  let failure := Some (mkError (Some "connect ECONNREFUSED")) in
  let p := (checkConnection (H:=decimal) hosted 30 failure (boot [] 1)).2 in
  connectionAttempts p = 1 ∧ connectionAttempts p < 5.
Proof.
  intros failure p. split; [reflexivity|].
  apply (counter_below_maximum (H:=decimal) hosted p 30 None).
  apply (reachable_check hosted (boot [] 1) 30 failure p); [constructor | reflexivity].
Defined.

(** X9.  A PUT whose [name] and [description] are scalars, or left out, is
    idempotent: sent a second time with the same path text and body, it gets
    the same answer and leaves the table as the first one left it, in both
    variants. *)
Theorem put_twice `{KeyReading} v id req_body p :
  let once := handle v (PUT_item id req_body) None p in
  let twice := handle v (PUT_item id req_body) None once.2 in
  twice.1 = once.1 ∧ table twice.2 = table once.2.
Proof.
  destruct v; unfold handle; cbn zeta.
  - rewrite !pool_put_item. cbn [fst snd items next_id with_items tick].
    set (g := λ r, if id_matches id (Item.id r)
                   then Pool.set_name_description (Pool.escape (req_body !! "name"))
                          (Pool.escape (req_body !! "description")) r
                   else r).
    assert (∀ r, Item.id (g r) = Item.id r) as Hid.
    { intros r. unfold g. by destruct (id_matches id (Item.id r)). }
    rewrite (matching_fmap id g) by done. rewrite length_fmap. split; [done|].
    unfold table. cbn. f_equal. by apply (rewrite_twice id).
  - pose proof (hosted_put_item id req_body p) as Honce. cbn zeta in Honce.
    set (payload := literal [("name", req_body !! "name");
                             ("description", req_body !! "description")]) in *.
    set (g := λ r, if id_matches id (Item.id r) then Hosted.patch payload r else r) in *.
    assert (∀ r, Item.id (g r) = Item.id r) as Hid.
    { intros r. unfold g. by destruct (id_matches id (Item.id r)). }
    destruct (decide (payload = ∅)) as [He|Hne].
    { rewrite Honce, hosted_put_item. cbn zeta. fold payload. by rewrite decide_True. }
    destruct (matching id (items p)) as [|row [|row' rest]] eqn:Hm.
    + rewrite Honce, hosted_put_item. cbn zeta. fold payload.
      rewrite decide_False by done.
      cbn [fst snd items next_id with_items with_console tick]. by rewrite Hm.
    + rewrite Honce, hosted_put_item. cbn zeta. fold payload. fold g.
      rewrite decide_False by done.
      cbn [fst snd items next_id with_items tick].
      rewrite (matching_fmap id g), Hm by done. cbn [fmap list_fmap].
      assert (g row = Hosted.patch payload row) as ->.
      { unfold g. rewrite (matching_matches id (items p)); [done|]. rewrite Hm. set_solver. }
      rewrite patch_twice. split; [done|].
      unfold table. cbn. f_equal. apply (rewrite_twice id); [done|]. apply patch_twice.
    + rewrite Honce, hosted_put_item. cbn zeta. fold payload.
      rewrite decide_False by done.
      cbn [fst snd items next_id with_items with_console tick]. by rewrite Hm.
Qed.

(** X10.  A DELETE sent a second time finds nothing to remove: the table
    stays as the first DELETE left it; the pooled variant answers the second
    one 404 with [{error: "Item not found"}], the hosted variant answers it
    204 like the first. *)
Theorem delete_twice `{KeyReading} v id p :
  let once := handle v (DELETE_item id) None p in
  let twice := handle v (DELETE_item id) None once.2 in
  table twice.2 = table once.2 ∧
  twice.1 = Returned match v with
                     | pool => mkResponse 404 (Object item_not_found)
                     | hosted => mkResponse 204 Empty
                     end.
Proof.
  destruct v; unfold handle; cbn zeta.
  - rewrite !pool_delete_item. cbn [fst snd items next_id with_items tick].
    rewrite matching_deleted. split; [|done].
    unfold table. cbn. f_equal. apply no_match_filter, matching_deleted.
  - rewrite !hosted_delete_item. cbn [fst snd items next_id with_items tick].
    split; [|done]. unfold table. cbn. f_equal. apply no_match_filter, matching_deleted.
Qed.

(** X11.  The 201 body of a POST.  In the pooled variant it echoes the
    request under the generated key: each of the five fields is in the
    answer exactly as the body has it, and a field the body leaves out is
    not in the answer (though NULL is stored).  In the hosted variant it is
    the stored row: a field the body leaves out is in the answer as null. *)
Theorem post_response_fields `{KeyReading} v req_body p :
  ∃ o p',
    handle v (POST_items req_body) None p = (Returned (mkResponse 201 (Object o)), p') ∧
    o !! "id" = Some (JNum (next_id p)) ∧
    Forall (λ key, o !! key = match v with
                              | pool => req_body !! key
                              | hosted => Some (default JNull (req_body !! key))
                              end)
           ["location"; "contacts"; "image"; "call_logs"; "sms"].
Proof.
  destruct v; unfold handle.
  - rewrite pool_post_items. do 2 eexists. split; [reflexivity|].
    repeat constructor;
      destruct (req_body !! "location"), (req_body !! "contacts"), (req_body !! "image"),
        (req_body !! "call_logs"), (req_body !! "sms"); reflexivity.
  - rewrite hosted_post_items. cbn zeta. rewrite hosted_inserted_row.
    do 2 eexists. split; [reflexivity|].
    repeat constructor;
      destruct (req_body !! "location"), (req_body !! "contacts"), (req_body !! "image"),
        (req_body !! "call_logs"), (req_body !! "sms"); reflexivity.
Qed.

(** X12.  What a PUT wrote is what the next GET reads: when the path text
    matches one stored row and the body has [name] and [description], each a
    text or null, the PUT answers 200 and the GET on the same text answers
    200 with that row, its [name] and [description] now the values of the
    body and its other columns as they were. *)
Theorem put_then_get `{KeyReading} v id req_body name description p row :
  matching id (items p) = [row] →
  req_body !! "name" = Some name →
  req_body !! "description" = Some description →
  text_or_null name →
  text_or_null description →
  ∃ updated p1 p2,
    handle v (PUT_item id req_body) None p = (Returned (mkResponse 200 updated), p1) ∧
    handle v (GET_item id) None p1 =
      (Returned (mkResponse 200 (Object (Item.json
         (Item.mk (Item.id row) (Item.location row) (Item.contacts row) (Item.image row)
                  (Item.call_logs row) (Item.sms row) name description)))), p2).
Proof.
  intros Hm Hn Hd _ _.
  assert (id_matches id (Item.id row) = true) as Hrow.
  { apply (matching_matches id (items p)). rewrite Hm. set_solver. }
  destruct v; unfold handle.
  - rewrite pool_put_item, Hm, Hn, Hd. cbn [length]. rewrite decide_False by done.
    do 3 eexists. split; [reflexivity|].
    rewrite pool_get_item. cbn [fst snd items next_id with_items tick].
    set (g := λ r, if id_matches id (Item.id r)
                   then Pool.set_name_description (Pool.escape (Some name))
                          (Pool.escape (Some description)) r
                   else r).
    rewrite (matching_fmap id g), Hm.
    2:{ intros r. unfold g. by destruct (id_matches id (Item.id r)). }
    cbn [fmap list_fmap]. unfold g. by rewrite Hrow.
  - rewrite hosted_put_item, Hm, Hn, Hd. cbn zeta.
    rewrite decide_False by apply insert_non_empty.
    do 3 eexists. split; [reflexivity|].
    rewrite hosted_get_item. cbn [fst snd items next_id with_items tick].
    set (payload := literal [("name", Some name); ("description", Some description)]).
    set (g := λ r, if id_matches id (Item.id r) then Hosted.patch payload r else r).
    rewrite (matching_fmap id g), Hm.
    2:{ intros r. unfold g. by destruct (id_matches id (Item.id r)). }
    cbn [fmap list_fmap]. unfold g. by rewrite Hrow.
Qed.

Lemma put_then_get_witness :
  let req_body : gmap string jsval := {[ "name" := JStr "N"; "description" := JNull ]} in
  ∃ updated p1 p2,
    handle (H:=decimal) pool (PUT_item "1" req_body) None (boot [sample] 2) =
      (Returned (mkResponse 200 updated), p1) ∧
    handle (H:=decimal) pool (GET_item "1") None p1 =
      (Returned (mkResponse 200 (Object (Item.json
         (Item.mk 1 (JStr "L") (JStr "C") (JStr "I") (JStr "CL") (JStr "S")
                  (JStr "N") JNull)))), p2).
Proof.
  intros req_body.
  apply (put_then_get (H:=decimal) pool "1" req_body (JStr "N") JNull (boot [sample] 2) sample).
  - by vm_compute.
  - reflexivity.
  - reflexivity.
  - exact I.
  - exact I.
Defined.

(** X13.  The two variants keep the same store.  For a request whose body
    fields are texts or null, and the same fate of the round trip, the
    pooled and the hosted handler of the status, list, create, read and
    delete routes leave the same rows, in whatever order, and the same next
    key; so do the two handlers of PUT when the path text matches at most
    one row and the body has both [name] and [description]. *)
Theorem variants_store_alike `{KeyReading} now id req_body fault p :
  map_Forall (λ _ v, text_or_null v) req_body →
  Forall (λ r, same_store (handle pool r fault p).2 (handle hosted r fault p).2)
         [GET_status now; GET_items; POST_items req_body; GET_item id; DELETE_item id] ∧
  (length (matching id (items p)) ≤ 1 →
   is_Some (req_body !! "name") →
   is_Some (req_body !! "description") →
   same_store (handle pool (PUT_item id req_body) fault p).2
              (handle hosted (PUT_item id req_body) fault p).2).
Proof.
  intros _.
  assert (∀ q q', table q = table q' → same_store q q') as Hsame.
  { intros q q' [= Hrows Hnext]. split; [by rewrite Hrows | done]. }
  split.
  - apply Forall_forall. intros r Hr. apply Hsame.
    destruct fault as [e|]; [by rewrite !handle_fault_table|].
    repeat (apply elem_of_cons in Hr as [->|Hr]);
      [| | | | |by apply elem_of_nil in Hr]; unfold handle;
      rewrite ?pool_get_item, ?pool_delete_item, ?pool_post_items,
        ?hosted_get_item, ?hosted_delete_item, ?hosted_post_items;
      cbn zeta; try done.
    + by rewrite hosted_inserted_row.
    + by destruct (matching id (items p)) as [|? [|]].
  - intros Hone [name Hn] [description Hd]. apply Hsame.
    destruct fault as [e|]; [by rewrite !handle_fault_table|]. unfold handle.
    rewrite pool_put_item, hosted_put_item. cbn zeta.
    rewrite Hn, Hd. cbn [snd]. case_decide as Hempty.
    { cbn in Hempty. by apply insert_non_empty in Hempty. }
    destruct (matching id (items p)) as [|row [|row' rest]] eqn:Hm.
    + unfold table. cbn. by rewrite no_match_fmap.
    + done.
    + cbn in Hone. lia.
Qed.

Lemma variants_store_alike_witness :
  let req_body : gmap string jsval :=
    {[ "name" := JStr "N"; "description" := JStr "D"; "location" := JStr "L2" ]} in
  Forall (λ r, same_store (handle (H:=decimal) pool r None (boot [sample] 2)).2
                          (handle (H:=decimal) hosted r None (boot [sample] 2)).2)
         [GET_status "now"; GET_items; POST_items req_body; GET_item "1"; DELETE_item "1"] ∧
  same_store (handle (H:=decimal) pool (PUT_item "1" req_body) None (boot [sample] 2)).2
             (handle (H:=decimal) hosted (PUT_item "1" req_body) None (boot [sample] 2)).2.
Proof.
  intros req_body.
  destruct (variants_store_alike (H:=decimal) "now" "1" req_body None (boot [sample] 2))
    as [Hfive Hput].
  - unfold req_body. repeat (apply map_Forall_insert_2; [exact I|]).
    apply map_Forall_empty.
  - split; [exact Hfive|]. apply Hput.
    + vm_compute. lia.
    + by eexists.
    + by eexists.
Defined.

(** X14.  The item routes do not tell the client what went wrong.  On the
    five item routes a failed round trip is answered with exactly 500 and
    [{error: "Internal server error"}], whatever the error was; the error
    goes to the console, in one new report that holds the error value. *)
Theorem item_routes_hide_the_error `{KeyReading} v id req_body e p :
  Forall (λ r, ∃ label,
            handle v r (Some e) p =
              (Returned (mkResponse 500 (Object internal_server_error)),
               with_console (Report label e :: console p) (tick p)))
         [GET_items; POST_items req_body; GET_item id; PUT_item id req_body; DELETE_item id].
Proof. destruct v; repeat constructor; by eexists. Qed.

Section Counter.
Context `{KeyReading}.

End Counter.

(** X15.  The counter counts the failed probes since the last one that
    succeeded.  From a reachable state, after connection checks that leave
    the process running, [connectionAttempts] is the number of failed probes
    after the last successful one (counted on from where it stood if none
    succeeded), and [isConnected] tells whether the last probe succeeded. *)
Theorem counter_counts_failures_since_success `{KeyReading} v probes p p' :
  reachable v p →
  checks v probes p = (Returned (), p') →
  connectionAttempts p' = failures_since_success (connectionAttempts p) probes ∧
  isConnected p' = last_probe_succeeded (isConnected p) probes.
Proof.
  revert p. induction probes as [|[t fault] probes IH]; intros p Hreach Hrun.
  { cbn in Hrun. by simplify_eq. }
  cbn in Hrun. destruct (checkConnection v t fault p) as [[[]|e|code] q] eqn:Hstep;
    [|done|done].
  assert (reachable v q) as Hq by by eapply reachable_check.
  destruct (IH q Hq Hrun) as [-> ->].
  unfold failures_since_success, last_probe_succeeded. cbn [foldl snd].
  destruct fault as [e|].
  - destruct (check_fails v t e p) as (q' & Hq' & Hflag & Hcount).
    rewrite Hq' in Hstep. case_decide; simplify_eq. by rewrite Hflag, Hcount.
  - destruct (check_succeeds v t p) as (q' & Hq' & Hflag & Hcount).
    rewrite Hq' in Hstep. simplify_eq. rewrite Hflag, Hcount.
    destruct (isConnected p) eqn:Hup; [|done].
    by rewrite (connected_means_no_attempts v p).
Qed.

Lemma counter_counts_failures_since_success_witness :
  let failure := Some (mkError (Some "connect ETIMEDOUT")) in
  let probes := [(20, failure); (25, None); (31, None); (40, failure); (38, failure)] in
  let p' := (checks (H:=decimal) pool probes (boot [] 1)).2 in
  connectionAttempts p' = 2 ∧ isConnected p' = false.
Proof.
  intros failure probes p'.
  apply (counter_counts_failures_since_success (H:=decimal) pool probes (boot [] 1) p').
  - constructor.
  - by vm_compute.
Defined.

